(** * generate-toc: exclusion rules and tree building

    A shallow embedding of [generate-toc.js]: the rule compiler
    ([expandGlobRule]), the rule loader ([readLinesIfExists],
    [loadExcludeRules]), the inclusion decision ([isIncluded]) and the tree
    builder ([createNode], [insertPath], [buildTree]/[walkDir]), followed by
    the properties of the design document that concern them; then the rest
    of the program ([parseArgs], [escapeHtml], [renderNode], [wrapPage])
    and further properties of the whole.

    The sources hold two versions of the program: version 0.2.0 up to and
    including [expandGlobRule], and version 0.1.0 in full, where
    [loadExcludeRules] compiles each rule itself.  Both compilers are
    embedded; [isIncluded], [insertPath] and [buildTree] are those of
    version 0.1.0, the only ones there are.

    JavaScript strings are modelled by [string], one [ascii] per code unit,
    so the model covers code units 0..255.  Objects that the program mutates
    in place ([rules], [root]) are threaded explicitly. *)

From Stdlib Require Import String Ascii List Bool Arith ZArith Lia.
Import ListNotations.
Open Scope string_scope.
Open Scope list_scope.
Set Warnings "-register-all".

(* ================================================================= *)
(** ** JavaScript string primitives used by the program *)

Module JS.

(** [s.startsWith(p)] *)
Definition startsWith (s p : string) : bool := String.prefix p s.

(** [s.endsWith(p)]: [p] is a suffix of [s]. *)
Fixpoint endsWith (s p : string) : bool :=
  (s =? p) ||
  match s with
  | EmptyString => false
  | String _ s' => endsWith s' p
  end.

(** Resolution of a relative index of [slice] against a length. *)
Definition clampIndex (len : nat) (i : Z) : nat :=
  if (i <? 0)%Z then Z.to_nat (Z.max (Z.of_nat len + i) 0)
  else Nat.min (Z.to_nat i) len.

(** [s.slice(b, e)]; [e = None] is the one-argument form [s.slice(b)]. *)
Definition slice (s : string) (b : Z) (e : option Z) : string :=
  let len := String.length s in
  let from := clampIndex len b in
  let to := match e with Some e' => clampIndex len e' | None => len end in
  String.substring from (to - from) s.

(** White space as [String.prototype.trim] sees it, among the code units
    0..255: TAB, LF, VT, FF, CR, SPACE and NBSP. *)
Definition isWhiteSpace (c : ascii) : bool :=
  let n := nat_of_ascii c in
  ((9 <=? n)%nat && (n <=? 13)%nat) || (n =? 32)%nat || (n =? 160)%nat.

Fixpoint trimStart (s : string) : string :=
  match s with
  | EmptyString => EmptyString
  | String c s' => if isWhiteSpace c then trimStart s' else s
  end.

Fixpoint trimEnd (s : string) : string :=
  match s with
  | EmptyString => EmptyString
  | String c s' =>
      match trimEnd s' with
      | EmptyString => if isWhiteSpace c then EmptyString else String c EmptyString
      | t => String c t
      end
  end.

(** [s.trim()] *)
Definition trim (s : string) : string := trimEnd (trimStart s).

(** [s.split(sep)] for a one-character separator: never empty, the empty
    string splits into one empty piece. *)
Fixpoint split (sep : ascii) (s : string) : list string :=
  match s with
  | EmptyString => [EmptyString]
  | String c s' =>
      if Ascii.eqb c sep then EmptyString :: split sep s'
      else match split sep s' with
           | piece :: pieces => String c piece :: pieces
           | [] => [String c EmptyString]
           end
  end.

(** [parts.join(sep)] *)
Fixpoint join (sep : string) (parts : list string) : string :=
  match parts with
  | [] => EmptyString
  | [p] => p
  | p :: rest => p ++ sep ++ join sep rest
  end.

Definition LF : ascii := ascii_of_nat 10.
Definition CR : ascii := ascii_of_nat 13.

(** [s.split(/\r?\n/)]: a line ends at LF, or at CR immediately followed by
    LF; a CR elsewhere is an ordinary character. *)
Fixpoint splitLines (s : string) : list string :=
  match s with
  | EmptyString => [EmptyString]
  | String c s' =>
      if Ascii.eqb c LF then EmptyString :: splitLines s'
      else
        let rest := splitLines s' in
        let crlf := Ascii.eqb c CR &&
                    match s' with
                    | String c' _ => Ascii.eqb c' LF
                    | EmptyString => false
                    end in
        if crlf then rest
        else match rest with
             | piece :: pieces => String c piece :: pieces
             | [] => [String c EmptyString]
             end
  end.

(** Truthiness of a string: non-empty. *)
Definition truthy (s : string) : bool := negb (s =? "").

End JS.

(* ================================================================= *)
(** ** Regular expressions and the glob compiler of the path library *)

(** The regular expressions that [globToRegExp] produces, as syntax trees.
    Every such expression is anchored ([^...$]), so [test] below decides
    whether the whole subject matches. *)
Inductive RegExp : Type :=
  | RNever                      (* (?!)   : matches nothing *)
  | REmpty                      (*        : the empty expression *)
  | RChar (c : ascii)           (* c      : one literal character *)
  | RAny                        (* .      : any character but a line end *)
  | RNotSep                     (* [^/]   *)
  | REnd                        (* $      : end of the subject *)
  | RCat (r s : RegExp)
  | RAlt (r s : RegExp)
  | RStar (r : RegExp).

Module RegExpSem.

Definition RPlus (r : RegExp) : RegExp := RCat r (RStar r).

(** [nullable atEnd r]: [r] matches the empty string at the current
    position, which is the end of the subject iff [atEnd]. *)
Fixpoint nullable (atEnd : bool) (r : RegExp) : bool :=
  match r with
  | RNever => false
  | REmpty => true
  | RChar _ => false
  | RAny => false
  | RNotSep => false
  | REnd => atEnd
  | RCat r s => nullable atEnd r && nullable atEnd s
  | RAlt r s => nullable atEnd r || nullable atEnd s
  | RStar _ => true
  end.

Definition cat (r s : RegExp) : RegExp :=
  match r, s with
  | RNever, _ => RNever
  | _, RNever => RNever
  | REmpty, _ => s
  | _, _ => RCat r s
  end.

Definition alt (r s : RegExp) : RegExp :=
  match r, s with
  | RNever, _ => s
  | _, RNever => r
  | _, _ => RAlt r s
  end.

(** Brzozowski derivative: what remains to be matched after reading [c]. *)
Fixpoint deriv (c : ascii) (r : RegExp) : RegExp :=
  match r with
  | RNever => RNever
  | REmpty => RNever
  | RChar a => if Ascii.eqb a c then REmpty else RNever
  | RAny => if Ascii.eqb c JS.LF || Ascii.eqb c JS.CR then RNever else REmpty
  | RNotSep => if Ascii.eqb c "/" then RNever else REmpty
  | REnd => RNever
  | RCat r s =>
      alt (cat (deriv c r) s) (if nullable false r then deriv c s else RNever)
  | RAlt r s => alt (deriv c r) (deriv c s)
  | RStar r => cat (deriv c r) (RStar r)
  end.

(** [rx.test(p)] for an anchored expression without flags. *)
Fixpoint test (rx : RegExp) (p : string) : bool :=
  match p with
  | EmptyString => nullable true rx
  | String c p' => test (deriv c rx) p'
  end.

End RegExpSem.

(** The glob compiler of the path library, [jsr:@std/path], which is not
    part of the sources.  The separator is [/]. *)
Module Glob.
Import RegExpSem.

Definition sep : RegExp := RPlus (RChar "/").
Definition sepMaybe : RegExp := RStar (RChar "/").
Definition globstar : RegExp :=
  RStar (RCat (RStar RNotSep) (RPlus (RAlt (RChar "/") REnd))).
Definition wildcard : RegExp := RStar RNotSep.

(** Drop every trailing separator. *)
Fixpoint dropSeps (s : string) : string :=
  match s with
  | EmptyString => EmptyString
  | String c rest =>
      match dropSeps rest with
      | EmptyString => if Ascii.eqb c "/" then EmptyString else String c EmptyString
      | rest' => String c rest'
      end
  end.

(** Drop the trailing separators of a glob, keeping at least one character. *)
Definition dropTrailingSeps (glob : string) : string :=
  match glob with
  | EmptyString => EmptyString
  | String c rest => String c (dropSeps rest)
  end.

(** The characters of one segment (no separator among them) that is not a
    globstar; a run of stars yields one wildcard. *)
Fixpoint segmentBody (seg : list ascii) : RegExp :=
  match seg with
  | [] => REmpty
  | c :: seg' =>
      if Ascii.eqb c "*" then
        match seg' with
        | c' :: _ => if Ascii.eqb c' "*" then segmentBody seg'
                     else RCat wildcard (segmentBody seg')
        | [] => RCat wildcard REmpty
        end
      else if Ascii.eqb c "?" then RCat RAny (segmentBody seg')
      else RCat (RChar c) (segmentBody seg')
  end.

(** One segment with the separator that follows it; [more] tells whether
    the glob goes on after the segment. *)
Definition segment (seg : list ascii) (more : bool) : RegExp :=
  match seg with
  | ["*"; "*"]%char => globstar
  | _ => RCat (segmentBody seg) (if more then sep else sepMaybe)
  end.

(** The loop over the glob: [cur] is the segment being read ([None] while
    the separators after a segment are skipped), in reverse. *)
Fixpoint segments (cur : option (list ascii)) (glob : string) : RegExp :=
  match glob with
  | EmptyString =>
      match cur with
      | Some seg => segment (rev seg) false
      | None => REmpty
      end
  | String c glob' =>
      if Ascii.eqb c "/" then
        match cur with
        | Some seg => RCat (segment (rev seg) true) (segments None glob')
        | None => segments None glob'
        end
      else
        match cur with
        | Some seg => segments (Some (c :: seg)) glob'
        | None => segments (Some [c]) glob'
        end
  end.

(** Modelled from the spec: [globToRegExp] of the external path library,
    called with [{ extended: true, globstar: true }].  "[*] matches within a
    path segment, [**] matches across segments (including zero segments),
    [?] matches one character."  The model follows the library's
    segment-wise translation: trailing separators of the glob are dropped, a
    segment that is exactly [**] becomes the globstar [(?:[^/]*(?:/|$)+)*],
    any other run of stars becomes [[^/]*], [?] becomes [.], every segment
    but a globstar is followed by [/+] (by [/*] when it is the last one),
    and the empty glob matches nothing.  Bracket sets, brace and extended
    groups and backslash escapes are outside the fragment modelled here:
    their characters are compiled as literals.  The model is total: that
    the library throws on a malformed glob is not part of it, and
    [loadExcludeRulesWith] takes a compiler that can throw instead. *)
Definition globToRegExp (glob : string) : RegExp :=
  match glob with
  | EmptyString => RNever
  | _ => segments (Some []) (dropTrailingSeps glob)
  end.

End Glob.

(* ================================================================= *)
(** ** Exclude rules *)

(** The errors a read can throw. *)
Inductive DenoError : Type :=
  | NotFound
  | PermissionDenied
  | IsADirectory
  | InvalidData.

(** The completion of a JavaScript call: a value, or a thrown error. *)
Inductive Completion (A : Type) : Type :=
  | Returns (a : A)
  | Throws (err : DenoError).
Arguments Returns {A} a.
Arguments Throws {A} err.

(** Sequencing of calls that may throw. *)
Definition bind {A B : Type} (c : Completion A) (k : A -> Completion B)
  : Completion B :=
  match c with
  | Returns a => k a
  | Throws err => Throws err
  end.

Notation "x <- c ;; k" := (bind c (fun x => k))
  (at level 61, c at next level, right associativity).

(** [try { body } catch { handler }]: the handler does not see the error. *)
Definition tryCatch {A : Type} (body handler : Completion A) : Completion A :=
  match body with
  | Returns a => Returns a
  | Throws _ => handler
  end.

(** What the program asks of its platform while loading rules: reading a
    text file ([Deno.readTextFileSync]), reading an environment variable
    ([Deno.env.get]) and joining two paths ([join]). *)
Record Platform : Type := {
  readTextFileSync : string -> Completion string;
  envGet : string -> option string;
  pathJoin : string -> string -> string
}.

(** [readLinesIfExists]: whatever the read throws, the result is the empty
    list. *)
Definition readLinesIfExists (P : Platform) (path : string)
  : Completion (list string) :=
  tryCatch
    (text <- readTextFileSync P path ;;
     Returns (JS.splitLines text))
    (Returns []).

(** A compiled matcher: the object [{ neg, rx, raw }]. *)
Record Matcher : Type := {
  neg : bool;
  rx : RegExp;
  raw : string
}.

(** [expandGlobRule]: one rule line to one or four matchers. *)
Definition expandGlobRule (rule : string) : list Matcher :=
  let neg := JS.startsWith rule "!" in
  let rawPat := if neg then JS.slice rule 1 None else rule in
  let pat := JS.trim rawPat in
  if JS.endsWith pat "/" then
    let dir := pat in
    let dirNoSlash := JS.slice pat 0 (Some (-1)%Z) in
    [ {| neg := neg; rx := Glob.globToRegExp ("**/" ++ dir ++ "**"); raw := rule |};
      {| neg := neg; rx := Glob.globToRegExp (dir ++ "**"); raw := rule |};
      {| neg := neg; rx := Glob.globToRegExp ("**/" ++ dirNoSlash); raw := rule |};
      {| neg := neg; rx := Glob.globToRegExp dirNoSlash; raw := rule |} ]
  else
    [ {| neg := neg; rx := Glob.globToRegExp pat; raw := rule |} ].

(** [a || d] for an optional string [a]: [undefined] and the empty string
    are falsy. *)
Definition orString (a : option string) (d : string) : string :=
  match a with
  | Some s => if JS.truthy s then s else d
  | None => d
  end.

(** The body shared by the two [for (const line of ...)] loops of
    [loadExcludeRules]: trim, drop blank lines and comments, push. *)
Definition pushLine (rules : list string) (line : string) : list string :=
  let s := JS.trim line in
  if negb (JS.truthy s) || JS.startsWith s "#" then rules
  else rules ++ [s].

Definition pushLines (lines : list string) (rules : list string) : list string :=
  fold_left pushLine lines rules.

(** The first half of [loadExcludeRules]: the rule lines of the global file
    (unless disabled), then those of the local file. *)
Definition collectRules (P : Platform) (noGlobal : bool) (rootDir : string)
  : Completion (list string) :=
  let rules := [] in
  let localPath := pathJoin P rootDir ".generate-toc-exclude" in
  let home := orString (envGet P "HOME") (orString (envGet P "USERPROFILE") "") in
  let globalPath :=
    if JS.truthy home then pathJoin P home ".generate-toc-exclude" else "" in
  rules <- (if negb noGlobal && JS.truthy globalPath
            then lines <- readLinesIfExists P globalPath ;;
                 Returns (pushLines lines rules)
            else Returns rules) ;;
  lines <- readLinesIfExists P localPath ;;
  Returns (pushLines lines rules).

(** The callback of [rules.map] in [loadExcludeRules] (version 0.1.0): one
    matcher per rule, the pattern being what follows a leading [!]. *)
Definition compileRule (rule : string) : Matcher :=
  let neg := JS.startsWith rule "!" in
  let pattern := if neg then JS.slice rule 1 None else rule in
  {| neg := neg; rx := Glob.globToRegExp pattern; raw := rule |}.

(** [loadExcludeRules] as version 0.1.0 has it. *)
Definition loadExcludeRules (P : Platform) (noGlobal : bool) (rootDir : string)
  : Completion (list Matcher) :=
  rules <- collectRules P noGlobal rootDir ;;
  Returns (map compileRule rules).

(** Modelled from the spec: the body of [loadExcludeRules] of version 0.2.0
    is missing from the sources, which stop after [expandGlobRule].  "Rule
    Set: an ordered sequence of Rules", each Rule with "one or more compiled
    pattern matchers": the rule lines are collected as above and each is
    compiled by [expandGlobRule]; [isIncluded] receives the matchers in
    order. *)
Definition compileRuleSet (rules : list string) : list Matcher :=
  flat_map expandGlobRule rules.

(** Modelled from the spec: [loadExcludeRules] of version 0.2.0, see
    [compileRuleSet]; the rule lines are collected as in version 0.1.0. *)
Definition loadRuleSet (P : Platform) (noGlobal : bool) (rootDir : string)
  : Completion (list Matcher) :=
  rules <- collectRules P noGlobal rootDir ;;
  Returns (compileRuleSet rules).

(** The loop of [isIncluded]: no [break], every rule is tested. *)
Fixpoint isIncludedLoop (p : string) (compiledRules : list Matcher)
    (include : bool) : bool :=
  match compiledRules with
  | [] => include
  | r :: more =>
      let include :=
        if RegExpSem.test (rx r) p
        then (if neg r then true else false)
        else include in
      isIncludedLoop p more include
  end.

(** The subject of every match: [relPath.split("\\").join("/")]. *)
Definition posixish (relPath : string) : string :=
  JS.join "/" (JS.split "\" relPath).

Definition isIncluded (relPath : string) (compiledRules : list Matcher) : bool :=
  let p := posixish relPath in
  isIncludedLoop p compiledRules true.

(** [m] matches [relPath], as the engine tests it. *)
Definition matches (relPath : string) (m : Matcher) : bool :=
  RegExpSem.test (rx m) (posixish relPath).

(** Modelled from the spec: the decision over Rules that keep their
    matchers together.  "For each Rule, if any of its compiled matchers
    matches the path, set the running verdict to true if the rule is
    negated, else false"; the default verdict is true. *)
Definition decide (p : string) (R : list string) : bool :=
  fold_left
    (fun verdict rule =>
       if existsb (matches p) (expandGlobRule rule)
       then JS.startsWith rule "!"
       else verdict)
    R true.

(* ================================================================= *)
(** ** Tree building *)

(** A tree node: the object [{ name, children, files }].  [children] is a
    JavaScript [Map], kept as an association list in insertion order;
    [files] is an array. *)
Inductive Node : Type :=
  mkNode { name : string; children : list (string * Node); files : list string }.

Definition createNode (name : string) : Node :=
  {| name := name; children := []; files := [] |}.

(** [Map.prototype.get], [has] and [set]. *)
Fixpoint mapGet (key : string) (m : list (string * Node)) : option Node :=
  match m with
  | [] => None
  | (k, v) :: m' => if k =? key then Some v else mapGet key m'
  end.

Definition mapHas (key : string) (m : list (string * Node)) : bool :=
  match mapGet key m with Some _ => true | None => false end.

Fixpoint mapSet (key : string) (value : Node) (m : list (string * Node))
  : list (string * Node) :=
  match m with
  | [] => [(key, value)]
  | (k, v) :: m' =>
      if k =? key then (k, value) :: m' else (k, v) :: mapSet key value m'
  end.

(** [insertPath]: the node is updated in place in the program; here the
    updated child is written back under its key.  The key looked up has
    just been set when it was missing, so the lookup finds a child. *)
Fixpoint insertPath (root : Node) (pathParts : list string) : Node :=
  match pathParts with
  | [] => root
  | dir :: rest =>
      match rest with
      | [] => {| name := name root; children := children root;
                 files := files root ++ [dir] |}
      | _ :: _ =>
          let children1 :=
            if mapHas dir (children root) then children root
            else mapSet dir (createNode dir) (children root) in
          match mapGet dir children1 with
          | Some child =>
              {| name := name root;
                 children := mapSet dir (insertPath child rest) children1;
                 files := files root |}
          | None => {| name := name root; children := children1;
                       files := files root |}
          end
      end
  end.

(** What [Deno.readDir] yields: a name and a kind.  A directory carries the
    entries that reading it yields, in enumeration order; [Symlink] stands
    for every entry that is neither a file nor a directory. *)
Inductive DirEntry : Type :=
  | File (n : string)
  | Directory (n : string) (entries : list DirEntry)
  | Symlink (n : string).

Definition entryName (entry : DirEntry) : string :=
  match entry with
  | File n => n
  | Directory n _ => n
  | Symlink n => n
  end.

(** [posix.join(relDir, name)] for a non-empty [relDir] built by this very
    function and the name of a directory entry (not empty, no separator,
    neither [.] nor [..]), where nothing is left to normalise. *)
Definition posixJoin (relDir name : string) : string :=
  relDir ++ "/" ++ name.

(** The state of the traversal: the tree under construction and, as ghost
    state, the relative paths of the entries the loop body has run for. *)
Record Walk : Type := {
  root : Node;
  visited : list string
}.

(** One iteration of the loop of [walkDir]. *)
Fixpoint walkEntry (compiledRules : list Matcher) (relDir : string)
    (entry : DirEntry) (w : Walk) {struct entry} : Walk :=
  let rel := if JS.truthy relDir then posixJoin relDir (entryName entry)
             else entryName entry in
  let w := {| root := root w; visited := visited w ++ [rel] |} in
  if negb (isIncluded rel compiledRules) then w
  else
    match entry with
    | Directory _ entries =>
        fold_left (fun w e => walkEntry compiledRules rel e w) entries w
    | File _ =>
        {| root := insertPath (root w) (JS.split "/" rel);
           visited := visited w |}
    | Symlink _ => w
    end.

Definition walkDir (compiledRules : list Matcher) (entries : list DirEntry)
    (relDir : string) (w : Walk) : Walk :=
  fold_left (fun w e => walkEntry compiledRules relDir e w) entries w.

(** [buildTree] with its ghost state; [rootEntries] is what reading the scan
    root yields. *)
Definition buildTreeWalk (rootEntries : list DirEntry)
    (compiledRules : list Matcher) : Walk :=
  walkDir compiledRules rootEntries "" {| root := createNode ""; visited := [] |}.

Definition buildTree (rootEntries : list DirEntry)
    (compiledRules : list Matcher) : Node :=
  root (buildTreeWalk rootEntries compiledRules).

(** The included files of a scan, in insertion order: the relative paths
    that [walkDir] hands to [insertPath]. *)
Fixpoint scanEntry (compiledRules : list Matcher) (relDir : string)
    (entry : DirEntry) {struct entry} : list string :=
  let rel := if JS.truthy relDir then posixJoin relDir (entryName entry)
             else entryName entry in
  if negb (isIncluded rel compiledRules) then []
  else
    match entry with
    | Directory _ entries => flat_map (scanEntry compiledRules rel) entries
    | File _ => [rel]
    | Symlink _ => []
    end.

Definition scanDir (compiledRules : list Matcher) (entries : list DirEntry)
    (relDir : string) : list string :=
  flat_map (scanEntry compiledRules relDir) entries.

(* ================================================================= *)
(** ** Notions used to state the properties *)

(** The running verdict of the decision after one more matcher. *)
Definition stepVerdict (p : string) (verdict : bool) (m : Matcher) : bool :=
  if matches p m then neg m else verdict.

(** The last matcher of the list that matches the path. *)
Definition lastMatching (relPath : string) (compiledRules : list Matcher)
  : option Matcher :=
  find (matches relPath) (rev compiledRules).

(** A rule matches a path when any of its matchers does. *)
Definition ruleMatches (relPath : string) (rule : string) : bool :=
  existsb (matches relPath) (expandGlobRule rule).

(** The last rule of the rule set that matches the path. *)
Definition lastMatchingRule (relPath : string) (R : list string)
  : option string :=
  find (ruleMatches relPath) (rev R).

(** The negated flag and the pattern of a rule as the data model words
    them: the rule begins with [!]; the text after a single leading [!],
    with the surrounding white space trimmed. *)
Definition ruleNegated (rule : string) : bool :=
  match rule with
  | String "!" _ => true
  | _ => false
  end.

Definition ruleRest (rule : string) : string :=
  match rule with
  | String "!" rest => rest
  | _ => rule
  end.

Definition rulePattern (rule : string) : string := JS.trim (ruleRest rule).

(** Only white space; no white space at either end. *)
Definition allWhite (s : string) : bool :=
  forallb JS.isWhiteSpace (list_ascii_of_string s).

Definition firstChar (s : string) : option ascii :=
  match s with
  | EmptyString => None
  | String c _ => Some c
  end.

Fixpoint lastChar (s : string) : option ascii :=
  match s with
  | EmptyString => None
  | String c s' => match lastChar s' with Some d => Some d | None => Some c end
  end.

Definition nonWhite (c : option ascii) : bool :=
  match c with
  | Some c => negb (JS.isWhiteSpace c)
  | None => true
  end.

Definition trimmed (s : string) : bool :=
  nonWhite (firstChar s) && nonWhite (lastChar s).

(** The matcher compiled from one glob of a rule. *)
Definition matcherOf (rule glob : string) : Matcher :=
  {| neg := ruleNegated rule; rx := Glob.globToRegExp glob; raw := rule |}.

(** The globs compiled for a pattern: four for the directory shorthand,
    else the pattern itself. *)
Definition patternGlobs (pattern : string) : list string :=
  if JS.endsWith pattern "/" then
    let dirNoSlash := JS.slice pattern 0 (Some (-1)%Z) in
    [ ("**/" ++ pattern ++ "**")%string; (pattern ++ "**")%string;
      ("**/" ++ dirNoSlash)%string; dirNoSlash ]
  else [ pattern ].

(** The first character of a line that is not white space. *)
Fixpoint firstNonWhite (line : string) : option ascii :=
  match line with
  | EmptyString => None
  | String c line' => if JS.isWhiteSpace c then firstNonWhite line' else Some c
  end.

(** A line that is blank after trimming, or whose first non-white character
    is [#]. *)
Definition blankOrComment (line : string) : bool :=
  match firstNonWhite line with
  | None => true
  | Some c => Ascii.eqb c "#"
  end.

(** The lines of a rule source that are neither blank nor comments. *)
Definition significant (lines : list string) : list string :=
  filter (fun line => negb (blankOrComment line)) lines.

(** The lines the loader gets for a path. *)
Definition linesAt (P : Platform) (path : string) : list string :=
  match readLinesIfExists P path with
  | Returns lines => lines
  | Throws _ => []
  end.

(** The lines of the rule sources in the order [loadExcludeRules] reads
    them: global file (when enabled and a home directory is known), then
    local file. *)
Definition ruleLines (P : Platform) (noGlobal : bool) (rootDir : string)
  : list string :=
  let home := orString (envGet P "HOME") (orString (envGet P "USERPROFILE") "") in
  let globalPath :=
    if JS.truthy home then pathJoin P home ".generate-toc-exclude" else "" in
  (if negb noGlobal && JS.truthy globalPath then linesAt P globalPath else [])
  ++ linesAt P (pathJoin P rootDir ".generate-toc-exclude").

(** The node reached from [root] along a chain of directory names. *)
Fixpoint getNode (root : Node) (dirs : list string) : option Node :=
  match dirs with
  | [] => Some root
  | dir :: rest =>
      match mapGet dir (children root) with
      | Some child => getNode child rest
      | None => None
      end
  end.

(** The file with path [parts] is recorded in the tree. *)
Fixpoint hasFile (root : Node) (parts : list string) : bool :=
  match parts with
  | [] => false
  | part :: rest =>
      match rest with
      | [] => existsb (String.eqb part) (files root)
      | _ :: _ =>
          match mapGet part (children root) with
          | Some child => hasFile child rest
          | None => false
          end
      end
  end.

(** [q] lies strictly above [parts]: it is one of the nodes on the ancestor
    chain of the path [parts]. *)
Definition properPrefix (q parts : list string) : Prop :=
  exists rest, rest <> [] /\ parts = q ++ rest.

(** The child of [root] under [dir], or the node [insertPath] creates for
    it. *)
Definition childOrNew (dir : string) (root : Node) : Node :=
  match mapGet dir (children root) with
  | Some child => child
  | None => createNode dir
  end.

(** The keys of a [Map], in insertion order. *)
Definition keys (m : list (string * Node)) : list string := map fst m.

(** Inserting the included files of a scan, one after the other. *)
Definition insertAll (root : Node) (rels : list string) : Node :=
  fold_left (fun t rel => insertPath t (JS.split "/" rel)) rels root.

(** Every directory above the path [rel] is included: whenever [rel] is
    [a/rest], the engine includes [a]. *)
Definition ancestorsIncluded (compiledRules : list Matcher) (rel : string)
  : Prop :=
  forall a rest, rel = (a ++ "/" ++ rest)%string ->
                 isIncluded a compiledRules = true.

(** The names [Deno.readDir] can yield: not empty, no separator, neither
    [.] nor [..]. *)
Definition validName (n : string) : bool :=
  JS.truthy n && negb (n =? ".") && negb (n =? "..")
  && forallb (fun c => negb (Ascii.eqb c "/")) (list_ascii_of_string n).

Fixpoint validEntry (entry : DirEntry) : bool :=
  validName (entryName entry) &&
  match entry with
  | Directory _ entries => forallb validEntry entries
  | _ => true
  end.

Definition validEntries (entries : list DirEntry) : bool :=
  forallb validEntry entries.

(** What the traversal of an entry does to the state: it inserts the
    included files of the scan; it visits those files, among others; and
    under included directories it visits only paths all of whose ancestors
    are included. *)
Definition walkSpec (compiledRules : list Matcher) (entry : DirEntry) : Prop :=
  forall (relDir : string) (w : Walk),
    root (walkEntry compiledRules relDir entry w) =
      insertAll (root w) (scanEntry compiledRules relDir entry) /\
    exists new,
      visited (walkEntry compiledRules relDir entry w) = visited w ++ new /\
      incl (scanEntry compiledRules relDir entry) new /\
      (validEntry entry = true ->
       relDir = "" \/ (isIncluded relDir compiledRules = true /\
                       ancestorsIncluded compiledRules relDir) ->
       Forall (ancestorsIncluded compiledRules) new).

(** The claim of the design document on swallowed errors, for the rule
    loader: a missing file yields no lines, every other error of the read
    is thrown on. *)
Definition onlyMissingFileIgnored : Prop :=
  forall (P : Platform) (path : string),
    (readTextFileSync P path = Throws NotFound ->
     readLinesIfExists P path = Returns []) /\
    (forall err, err <> NotFound ->
       readTextFileSync P path = Throws err ->
       readLinesIfExists P path = Throws err).

(** Platforms and directory trees of the examples. *)
Module Examples.

Definition noEnv (_ : string) : option string := None.
Definition slashJoin (a b : string) : string := a ++ "/" ++ b.

(** Only the local rule file exists, with the given text. *)
Definition localOnly (text : string) : Platform :=
  {| readTextFileSync := fun path =>
       if path =? "./.generate-toc-exclude" then Returns text
       else Throws NotFound;
     envGet := noEnv;
     pathJoin := slashJoin |}.

(** The local rule file exists but may not be read. *)
Definition unreadable : Platform :=
  {| readTextFileSync := fun path =>
       if path =? "./.generate-toc-exclude" then Throws PermissionDenied
       else Throws NotFound;
     envGet := noEnv;
     pathJoin := slashJoin |}.

Definition commented : string :=
  "# note" ++ String JS.LF (String JS.LF ("build/" ++ String JS.LF "")).

Definition project : list DirEntry :=
  [ Directory "a" [ File "x.txt"; Directory "build" [ File "y.txt" ] ];
    File "README.md" ].

Definition keepProject : list DirEntry :=
  [ Directory "build" [ File "keep.txt" ]; File "notes.txt" ].

Definition logsProject : list DirEntry :=
  [ Directory "logs" [ File "a.log"; File "b.log" ]; File "README.md" ].

End Examples.

(* ================================================================= *)
(** ** The rest of the program *)

(** *** Command line *)

Module CLI.

(** The object [{ noGlobal, root }] that [parseArgs] returns. *)
Record Args : Type := { noGlobal : bool; root : string }.

(** One iteration of the loop of [parseArgs]. *)
Definition parseArg (out : Args) (a : string) : Args :=
  if a =? "--no-global" then {| noGlobal := true; root := root out |}
  else {| noGlobal := noGlobal out; root := a |}.

Definition parseArgs (args : list string) : Args :=
  fold_left parseArg args {| noGlobal := false; root := "." |}.

End CLI.

(** The rule lines as [main] asks for them: [loadExcludeRules] called with
    the [noGlobal] and [root] of the parsed arguments. *)
Definition collectRulesFor (P : Platform) (args : list string)
  : Completion (list string) :=
  let argv := CLI.parseArgs args in
  collectRules P (CLI.noGlobal argv) (CLI.root argv).

(** *** Escaping *)

(** The double quote. *)
Definition dquote : ascii := "034"%char.

(** [s.replaceAll(c, replacement)] for a pattern of one character and a
    replacement without [$], which is taken as it stands. *)
Fixpoint replaceAll (c : ascii) (replacement : string) (s : string) : string :=
  match s with
  | EmptyString => EmptyString
  | String x s' =>
      if Ascii.eqb x c then (replacement ++ replaceAll c replacement s')%string
      else String x (replaceAll c replacement s')
  end.

Definition escapeHtml (s : string) : string :=
  replaceAll dquote "&quot;"
    (replaceAll ">" "&gt;"
       (replaceAll "<" "&lt;"
          (replaceAll "&" "&amp;" s))).

(** What becomes of one character under [escapeHtml]. *)
Definition escapeChar (c : ascii) : string :=
  if Ascii.eqb c "&" then "&amp;"
  else if Ascii.eqb c "<" then "&lt;"
  else if Ascii.eqb c ">" then "&gt;"
  else if Ascii.eqb c dquote then "&quot;"
  else String c EmptyString.

Fixpoint escapeEach (s : string) : string :=
  match s with
  | EmptyString => EmptyString
  | String c s' => (escapeChar c ++ escapeEach s')%string
  end.

(** The character occurs in the string. *)
Definition occurs (c : ascii) (s : string) : bool :=
  existsb (Ascii.eqb c) (list_ascii_of_string s).

(** *** Notions for the further properties *)

(** A path with every backslash turned into a slash. *)
Fixpoint backslashToSlash (s : string) : string :=
  match s with
  | EmptyString => EmptyString
  | String c s' =>
      String (if Ascii.eqb c "\" then "/"%char else c) (backslashToSlash s')
  end.

(** A line without line break: neither LF nor CR. *)
Definition noLineBreak (line : string) : bool :=
  negb (occurs JS.LF line) && negb (occurs JS.CR line).

(** The two line ends. *)
Definition lineEndLF : string := String JS.LF EmptyString.
Definition lineEndCRLF : string := String JS.CR (String JS.LF EmptyString).

(** A rule line as the loader hands it to the compiler: not empty, no
    white space at either end, not a comment. *)
Definition ruleLine (rule : string) : bool :=
  JS.truthy rule && trimmed rule && negb (JS.startsWith rule "#").

(** The relative path the traversal computes for the entry reached from
    [relDir] through the names [parts]. *)
Definition pathOf (relDir : string) (parts : list string) : string :=
  fold_left
    (fun rel part => if JS.truthy rel then posixJoin rel part else part)
    parts relDir.

(** [parts] is the path, from [entry] on, of a regular file of the
    directory tree. *)
Fixpoint fileAtEntry (entry : DirEntry) (parts : list string) {struct entry}
  : bool :=
  match parts with
  | [] => false
  | part :: rest =>
      (entryName entry =? part) &&
      match entry with
      | File _ => match rest with [] => true | _ :: _ => false end
      | Directory _ entries => existsb (fun e => fileAtEntry e rest) entries
      | Symlink _ => false
      end
  end.

Definition fileAt (entries : list DirEntry) (parts : list string) : bool :=
  existsb (fun e => fileAtEntry e parts) entries.

(** The engine includes every entry on the way from [relDir] down the names
    [parts], each under the path the traversal computes for it. *)
Fixpoint chainIncluded (compiledRules : list Matcher) (relDir : string)
    (parts : list string) : bool :=
  match parts with
  | [] => true
  | part :: rest =>
      let rel := if JS.truthy relDir then posixJoin relDir part else part in
      isIncluded rel compiledRules && chainIncluded compiledRules rel rest
  end.

(** Every node below [root] bears the name it is stored under, the last
    name of its path; [root] itself is reached by the empty path. *)
Definition namedByKey (root : Node) : Prop :=
  forall (q : list string) (node : Node),
    getNode root q = Some node -> name node = last q (name root).

(** The node [insertPath] leaves at the end of the chain [dirs] after
    inserting [file] there: the node that was there with one more file, or
    a new one. *)
Definition withFile (dirs : list string) (file : string) (before : option Node)
  : Node :=
  match before with
  | Some node => {| name := name node; children := children node;
                    files := files node ++ [file] |}
  | None => {| name := last dirs ""; children := []; files := [file] |}
  end.

(** [Matches r s k]: the expression [r] matches [s] when [k] is what
    follows [s] in the subject; [$] matches at the end of the subject
    only. *)
Inductive Matches : RegExp -> string -> string -> Prop :=
  | MEmpty (k : string) : Matches REmpty "" k
  | MChar (c : ascii) (k : string) : Matches (RChar c) (String c "") k
  | MAny (c : ascii) (k : string) :
      Ascii.eqb c JS.LF || Ascii.eqb c JS.CR = false ->
      Matches RAny (String c "") k
  | MNotSep (c : ascii) (k : string) :
      Ascii.eqb c "/" = false -> Matches RNotSep (String c "") k
  | MEnd : Matches REnd "" ""
  | MCat (r1 r2 : RegExp) (s1 s2 k : string) :
      Matches r1 s1 (s2 ++ k) -> Matches r2 s2 k ->
      Matches (RCat r1 r2) (s1 ++ s2) k
  | MAltL (r1 r2 : RegExp) (s k : string) :
      Matches r1 s k -> Matches (RAlt r1 r2) s k
  | MAltR (r1 r2 : RegExp) (s k : string) :
      Matches r2 s k -> Matches (RAlt r1 r2) s k
  | MStarNil (r : RegExp) (k : string) : Matches (RStar r) "" k
  | MStarCons (r : RegExp) (s1 s2 k : string) :
      Matches r s1 (s2 ++ k) -> Matches (RStar r) s2 k ->
      Matches (RStar r) (s1 ++ s2) k.

(** A character that the glob compiler takes literally wherever it
    stands, and that is no separator. *)
Definition plainChar (c : ascii) : bool :=
  negb (existsb (Ascii.eqb c) ["/"; "\"; "*"; "?"; "["; "{"; "("]%char).

(** A directory name made of such characters, which as a rule line is
    neither a negation nor trimmed at its start. *)
Definition plainName (n : string) : bool :=
  match n with
  | EmptyString => false
  | String c _ =>
      negb (JS.isWhiteSpace c) && negb (Ascii.eqb c "!")
      && forallb plainChar (list_ascii_of_string n)
  end.

(** The double quote and the line feed, as strings. *)
Definition dq : string := String dquote EmptyString.
Definition nl : string := String JS.LF EmptyString.

Definition VERSION : string := "v0.1.0".

(** The lines of the page template before the table. *)
Definition pageHeadLines : list string :=
  [ "<!doctype html>";
    ("<html lang=" ++ dq ++ "en" ++ dq ++ ">")%string;
    ("<meta charset=" ++ dq ++ "utf-8" ++ dq ++ ">")%string;
    ("<meta name=" ++ dq ++ "viewport" ++ dq ++ " content=" ++ dq ++ "width=device-width,initial-scale=1" ++ dq ++ ">")%string;
    "<title>Table of Contents</title>";
    "<style>";
    "  :root { color-scheme: light dark; }";
    "  body { font-family: system-ui, -apple-system, Segoe UI, Roboto, sans-serif; margin: 2rem; }";
    "  h1 { margin-top: 0; font-size: 1.25rem; }";
    "  ul { list-style: none; padding-left: 1rem; margin: 0.25rem 0; }";
    "  li { margin: 0.15rem 0; }";
    "  .dir > span { font-weight: 600; }";
    "  a { text-decoration: none; }";
    "  a:hover { text-decoration: underline; }";
    "  footer { margin-top: 2rem; font: 12px/1.4 ui-monospace, SFMono-Regular, Menlo, Consolas, monospace; opacity: 0.7; }";
    "</style>";
    "<h1>Table of Contents</h1>" ].

(** [wrapPage]: the rendered table, or a note when it is empty, between
    the head and the foot of the page. *)
Definition noFilesNote : string := "<p><em>(no files)</em></p>".

Definition pageHead : string := (JS.join nl pageHeadLines ++ nl)%string.

Definition pageFoot : string :=
  (nl ++ "<footer>Generated by generate-toc " ++ VERSION ++ "</footer>" ++ nl
   ++ "</html>")%string.

Definition wrapPage (inner : string) : string :=
  (pageHead ++ (if JS.truthy inner then inner else noFilesNote) ++ pageFoot)%string.

(** [Array.prototype.sort] with a comparator.  The sort is stable; for a
    comparator that is a consistent ordering, as [localeCompare] is, its
    result is the one stable sorted arrangement, which insertion from the
    right computes. *)
Fixpoint insertSorted {A : Type} (compare : A -> A -> Z) (x : A)
    (sorted : list A) : list A :=
  match sorted with
  | [] => [x]
  | y :: rest =>
      if (compare x y <=? 0)%Z then x :: sorted
      else y :: insertSorted compare x rest
  end.

Definition sortWith {A : Type} (compare : A -> A -> Z) (l : list A) : list A :=
  fold_right (insertSorted compare) [] l.

(** [basePath ? `${basePath}/${name}` : name] *)
Definition childPath (basePath n : string) : string :=
  if JS.truthy basePath then (basePath ++ "/" ++ n)%string else n.

(** The list item of a directory, around what its node renders to. *)
Definition dirItem (dirName inner : string) : string :=
  ("  <li class=" ++ dq ++ "dir" ++ dq ++ "><span>" ++ escapeHtml dirName
   ++ "/</span>" ++ nl ++ inner ++ "  </li>" ++ nl)%string.

(** The list item of a file. *)
Definition fileItem (encodeURI : string -> string) (basePath file : string)
  : string :=
  let p := childPath basePath file in
  let href := encodeURI p in
  ("  <li class=" ++ dq ++ "file" ++ dq ++ "><a href=" ++ dq ++ href ++ dq ++ ">"
   ++ escapeHtml file ++ "</a></li>" ++ nl)%string.

(** [renderNode].  [localeCompare] and [encodeURI] belong to the platform
    and are parameters.  The program sorts the child nodes by name and then
    renders each; here each child is rendered where it stands and the
    rendered items are sorted by the same names, which gives the same
    string ([renderNode_as_written] below) and keeps the recursion on the
    children of the node. *)
Fixpoint renderNode (localeCompare : string -> string -> Z)
    (encodeURI : string -> string) (node : Node) (basePath : string)
    {struct node} : string :=
  let rendered :=
    map (fun entry =>
           let d := snd entry in
           (name d,
            dirItem (name d)
              (renderNode localeCompare encodeURI d (childPath basePath (name d)))))
        (children node) in
  let dirs := sortWith (fun a b => localeCompare (fst a) (fst b)) rendered in
  let files := sortWith localeCompare (files node) in
  let some := negb (Nat.eqb (List.length dirs) 0)
              || negb (Nat.eqb (List.length files) 0) in
  ((if some then "<ul>" ++ nl else "")
   ++ String.concat "" (map snd dirs)
   ++ String.concat "" (map (fileItem encodeURI basePath) files)
   ++ (if some then "</ul>" ++ nl else ""))%string.

(** The page for a directory tree and a rule set: what [main] writes once
    the rules are loaded. *)
Definition renderPage (localeCompare : string -> string -> Z)
    (encodeURI : string -> string) (rootEntries : list DirEntry)
    (compiledRules : list Matcher) : string :=
  let tree := buildTree rootEntries compiledRules in
  let tocHtml := renderNode localeCompare encodeURI tree "" in
  wrapPage tocHtml.

(** *** Rule loading over a glob compiler that can throw *)

(** How [loadExcludeRules] ends: with the compiled rules, with the error of
    a read, or with what the glob compiler has thrown. *)
Inductive LoadResult (E : Type) : Type :=
  | Loaded (compiledRules : list Matcher)
  | ReadThrew (err : DenoError)
  | CompileThrew (e : E).
Arguments Loaded {E} compiledRules.
Arguments ReadThrew {E} err.
Arguments CompileThrew {E} e.

(** The callback of [rules.map] in [loadExcludeRules] (version 0.1.0) over
    a [globToRegExp] that returns an expression or throws.  The library
    function is not part of the sources and is a parameter here; the call
    stands outside any [try]. *)
Definition compileRuleWith {E : Type} (globToRegExp : string -> RegExp + E)
    (rule : string) : Matcher + E :=
  let neg := JS.startsWith rule "!" in
  let pattern := if neg then JS.slice rule 1 None else rule in
  match globToRegExp pattern with
  | inl rx => inl {| neg := neg; rx := rx; raw := rule |}
  | inr e => inr e
  end.

(** [array.map(callback)] for a callback that can throw: from left to
    right, and the first throw ends the call. *)
Fixpoint mapThrowing {A B E : Type} (callback : A -> B + E) (l : list A)
  : list B + E :=
  match l with
  | [] => inl []
  | a :: l' =>
      match callback a with
      | inr e => inr e
      | inl b =>
          match mapThrowing callback l' with
          | inl bs => inl (b :: bs)
          | inr e => inr e
          end
      end
  end.

(** [loadExcludeRules] (version 0.1.0) over such a compiler. *)
Definition loadExcludeRulesWith {E : Type} (globToRegExp : string -> RegExp + E)
    (P : Platform) (noGlobal : bool) (rootDir : string) : LoadResult E :=
  match collectRules P noGlobal rootDir with
  | Throws err => ReadThrew err
  | Returns rules =>
      match mapThrowing (compileRuleWith globToRegExp) rules with
      | inl compiled => Loaded compiled
      | inr e => CompileThrew e
      end
  end.

(** Platforms of the further examples: a home directory with a global rule
    file beside the local one. *)
Module Samples.

Definition homeEnv (home : string) (key : string) : option string :=
  if key =? "HOME" then Some home else None.

Definition twoFiles (home globalText localText : string) : Platform :=
  {| readTextFileSync := fun path =>
       if path =? "./.generate-toc-exclude" then Returns localText
       else if path =? (home ++ "/.generate-toc-exclude")%string
            then Returns globalText
            else Throws NotFound;
     envGet := homeEnv home;
     pathJoin := Examples.slashJoin |}.

(** A rule file with a malformed glob, and a glob compiler that throws on
    it and compiles the others as the model does. *)
Definition malformed : string :=
  "build/" ++ String JS.LF "[z-a]".

Definition strictGlob (glob : string) : RegExp + string :=
  if glob =? "[z-a]" then inr "Invalid regular expression"
  else inl (Glob.globToRegExp glob).

(** The model's compiler, which never throws. *)
Definition totalGlob (glob : string) : RegExp + string :=
  inl (Glob.globToRegExp glob).

End Samples.

(* ================================================================= *)
(** * Properties *)

(** ** The inclusion decision *)

Section Decision.

Variable p : string.

Lemma isIncludedLoop_fold (cs : list Matcher) (include : bool) :
  isIncludedLoop (posixish p) cs include = fold_left (stepVerdict p) cs include.
Proof.
  revert include.
  induction cs as [|m cs IH]; intro include; simpl.
  - reflexivity.
  - rewrite IH. f_equal. unfold stepVerdict, matches.
    destruct (RegExpSem.test (rx m) (posixish p)); [destruct (neg m)|]; reflexivity.
Qed.

Lemma isIncluded_fold (cs : list Matcher) :
  isIncluded p cs = fold_left (stepVerdict p) cs true.
Proof. unfold isIncluded. apply isIncludedLoop_fold. Qed.

Lemma isIncluded_app (cs ms : list Matcher) :
  isIncluded p (cs ++ ms) = fold_left (stepVerdict p) ms (isIncluded p cs).
Proof. rewrite !isIncluded_fold. apply fold_left_app. Qed.

Lemma isIncluded_snoc (cs : list Matcher) (m : Matcher) :
  isIncluded p (cs ++ [m]) = if matches p m then neg m else isIncluded p cs.
Proof. rewrite isIncluded_app. reflexivity. Qed.

Lemma fold_stepVerdict_none (ms : list Matcher) (verdict : bool) :
  existsb (matches p) ms = false ->
  fold_left (stepVerdict p) ms verdict = verdict.
Proof.
  revert verdict.
  induction ms as [|m ms IH]; intros verdict H; simpl in *.
  - reflexivity.
  - apply orb_false_iff in H as [Hm Hms].
    unfold stepVerdict at 2. rewrite Hm. now apply IH.
Qed.

(** Matchers that share one flag behave as a single rule. *)
Lemma fold_stepVerdict_uniform (ms : list Matcher) (flag verdict : bool) :
  (forall m, In m ms -> neg m = flag) ->
  fold_left (stepVerdict p) ms verdict =
  if existsb (matches p) ms then flag else verdict.
Proof.
  revert verdict.
  induction ms as [|m ms IH]; intros verdict H; simpl.
  - reflexivity.
  - rewrite IH by (intros; apply H; now right).
    unfold stepVerdict. rewrite (H m) by now left.
    destruct (matches p m); simpl; [|reflexivity].
    now destruct (existsb (matches p) ms).
Qed.

Lemma lastMatching_snoc (cs : list Matcher) (m : Matcher) :
  lastMatching p (cs ++ [m]) =
  if matches p m then Some m else lastMatching p cs.
Proof. unfold lastMatching. rewrite rev_app_distr. reflexivity. Qed.

Lemma isIncluded_lastMatching (cs : list Matcher) :
  isIncluded p cs =
  match lastMatching p cs with Some m => neg m | None => true end.
Proof.
  induction cs as [|m cs IH] using rev_ind.
  - reflexivity.
  - rewrite isIncluded_snoc, lastMatching_snoc.
    now destruct (matches p m).
Qed.

End Decision.

Lemma startsWith_bang (rule : string) :
  JS.startsWith rule "!" = ruleNegated rule.
Proof.
  destruct rule as [|c rest]; [reflexivity|].
  unfold JS.startsWith, ruleNegated. simpl.
  destruct (ascii_dec "!" c) as [<-|Hc].
  - now destruct rest.
  - destruct c as [[] [] [] [] [] [] [] []]; try reflexivity. now elim Hc.
Qed.

Lemma expandGlobRule_neg (rule : string) (m : Matcher) :
  In m (expandGlobRule rule) -> neg m = ruleNegated rule.
Proof.
  rewrite <- startsWith_bang. unfold expandGlobRule.
  destruct (JS.endsWith _ "/"); simpl; intros H;
    repeat (destruct H as [<-|H]; [reflexivity|]); contradiction.
Qed.

Lemma compileRuleSet_snoc (R : list string) (r : string) :
  compileRuleSet (R ++ [r]) = compileRuleSet R ++ expandGlobRule r.
Proof.
  unfold compileRuleSet. rewrite flat_map_app. simpl. now rewrite app_nil_r.
Qed.

Lemma isIncluded_ruleSet_snoc (p : string) (R : list string) (r : string) :
  isIncluded p (compileRuleSet (R ++ [r])) =
  if ruleMatches p r then ruleNegated r else isIncluded p (compileRuleSet R).
Proof.
  rewrite compileRuleSet_snoc, isIncluded_app.
  apply fold_stepVerdict_uniform. intros m. apply expandGlobRule_neg.
Qed.

Lemma isIncluded_lastMatchingRule (p : string) (R : list string) :
  isIncluded p (compileRuleSet R) =
  match lastMatchingRule p R with Some r => ruleNegated r | None => true end.
Proof.
  induction R as [|r R IH] using rev_ind.
  - reflexivity.
  - rewrite isIncluded_ruleSet_snoc. unfold lastMatchingRule.
    rewrite rev_app_distr. simpl.
    now destruct (ruleMatches p r).
Qed.

Lemma decide_snoc (p : string) (R : list string) (r : string) :
  decide p (R ++ [r]) =
  if ruleMatches p r then ruleNegated r else decide p R.
Proof.
  unfold decide. rewrite fold_left_app. simpl.
  now rewrite startsWith_bang.
Qed.

Lemma decide_isIncluded (p : string) (R : list string) :
  decide p R = isIncluded p (compileRuleSet R).
Proof.
  induction R as [|r R IH] using rev_ind.
  - reflexivity.
  - now rewrite decide_snoc, isIncluded_ruleSet_snoc, IH.
Qed.

(** C3.  [isIncluded] runs through every matcher in order, a matching one
    setting the running verdict to its negation flag, so the verdict is the
    flag of the last matcher that matches the path, and true if none does.
    For a rule set compiled by [expandGlobRule] this is the negation flag of
    the last rule any of whose matchers matches, which is also the verdict
    of the rule-by-rule decision of the design document. *)
Theorem isIncluded_last_matching_rule_wins :
  forall p : string,
    (forall cs, isIncluded p cs = fold_left (stepVerdict p) cs true) /\
    (forall cs, isIncluded p cs =
                match lastMatching p cs with
                | Some m => neg m
                | None => true
                end) /\
    (forall R, isIncluded p (compileRuleSet R) =
               match lastMatchingRule p R with
               | Some r => ruleNegated r
               | None => true
               end) /\
    (forall R, decide p R = isIncluded p (compileRuleSet R)).
Proof.
  intro p. repeat split; intros.
  - apply isIncluded_fold.
  - apply isIncluded_lastMatching.
  - apply isIncluded_lastMatchingRule.
  - apply decide_isIncluded.
Qed.

(** C4.  When no matcher of the rule set matches the path, the verdict is
    the default: include. *)
Theorem isIncluded_default_true (p : string) (cs : list Matcher)
    (Hnone : existsb (matches p) cs = false) :
  isIncluded p cs = true.
Proof.
  rewrite isIncluded_fold. now apply fold_stepVerdict_none.
Qed.

Lemma isIncluded_default_true_witness :
  existsb (matches "notes.txt") (compileRuleSet ["*.log"; "build/"]) = false /\
  isIncluded "notes.txt" (compileRuleSet ["*.log"; "build/"]) = true.
Proof.
  split.
  - vm_compute. reflexivity.
  - apply (isIncluded_default_true "notes.txt" (compileRuleSet ["*.log"; "build/"])).
    vm_compute. reflexivity.
Defined.

(** C5.  Appending a rule none of whose matchers [ms] matches the path
    leaves the verdict for that path as it was. *)
Theorem isIncluded_append_nonmatching (p : string) (cs ms : list Matcher)
    (Hnone : existsb (matches p) ms = false) :
  isIncluded p (cs ++ ms) = isIncluded p cs.
Proof.
  rewrite isIncluded_app. now apply fold_stepVerdict_none.
Qed.

Lemma isIncluded_append_nonmatching_witness :
  existsb (matches "debug.log") (expandGlobRule "build/") = false /\
  isIncluded "debug.log" (compileRuleSet ["*.log"] ++ expandGlobRule "build/") =
  isIncluded "debug.log" (compileRuleSet ["*.log"]).
Proof.
  split.
  - vm_compute. reflexivity.
  - apply (isIncluded_append_nonmatching "debug.log"
             (compileRuleSet ["*.log"]) (expandGlobRule "build/")).
    vm_compute. reflexivity.
Defined.

(** ** The rule compiler *)

Lemma substring_all (s : string) : String.substring 0 (String.length s) s = s.
Proof. induction s as [|c s IH]; simpl; [reflexivity|now rewrite IH]. Qed.

Lemma slice_from_1 (c : ascii) (s : string) :
  JS.slice (String c s) 1 None = s.
Proof.
  unfold JS.slice, JS.clampIndex. simpl String.length. simpl Z.ltb.
  cbv iota. change (Z.to_nat 1) with 1.
  replace (Nat.min 1 (S (String.length s))) with 1 by lia.
  replace (S (String.length s) - 1) with (String.length s) by lia.
  simpl. rewrite ?Nat.sub_0_r. apply substring_all.
Qed.

(** What [expandGlobRule] trims is the text after a single leading [!]. *)
Lemma rawPat_ruleRest (rule : string) :
  (if JS.startsWith rule "!" then JS.slice rule 1 None else rule) = ruleRest rule.
Proof.
  rewrite startsWith_bang.
  destruct rule as [|c rest]; [reflexivity|].
  unfold ruleNegated, ruleRest.
  destruct c as [[] [] [] [] [] [] [] []]; try reflexivity.
  apply slice_from_1.
Qed.

Lemma expandGlobRule_patternGlobs (rule : string) :
  expandGlobRule rule = map (matcherOf rule) (patternGlobs (rulePattern rule)).
Proof.
  unfold expandGlobRule, patternGlobs, rulePattern, matcherOf.
  rewrite rawPat_ruleRest, startsWith_bang.
  now destruct (JS.endsWith (JS.trim (ruleRest rule)) "/").
Qed.

Lemma trimStart_spec (s : string) :
  exists lead, s = (lead ++ JS.trimStart s)%string /\ allWhite lead = true /\
               nonWhite (firstChar (JS.trimStart s)) = true.
Proof.
  induction s as [|c s (lead & Heq & Hw & Hf)]; simpl.
  - now exists "".
  - destruct (JS.isWhiteSpace c) eqn:Hc.
    + exists (String c lead). repeat split.
      * simpl. now rewrite <- Heq.
      * unfold allWhite in *. simpl. now rewrite Hc.
      * exact Hf.
    + exists "". repeat split. simpl. now rewrite Hc.
Qed.

Lemma trimEnd_spec (s : string) :
  exists trail, s = (JS.trimEnd s ++ trail)%string /\ allWhite trail = true /\
                nonWhite (lastChar (JS.trimEnd s)) = true.
Proof.
  induction s as [|c s (trail & Heq & Hw & Hl)]; simpl.
  - now exists "".
  - destruct (JS.trimEnd s) as [|d t] eqn:Ht.
    + destruct (JS.isWhiteSpace c) eqn:Hc.
      * exists (String c trail). repeat split.
        -- simpl in *. now rewrite <- Heq.
        -- unfold allWhite in *. simpl. now rewrite Hc.
      * exists trail. repeat split.
        -- simpl in *. now rewrite <- Heq.
        -- exact Hw.
        -- simpl. now rewrite Hc.
    + exists trail. repeat split.
      * simpl in *. now rewrite <- Heq.
      * exact Hw.
      * simpl in *. now destruct (lastChar t).
Qed.

Lemma trimEnd_firstChar (s : string) :
  nonWhite (firstChar s) = true ->
  nonWhite (firstChar (JS.trimEnd s)) = true.
Proof.
  destruct s as [|c s]; simpl; [reflexivity|].
  intro Hc. apply negb_true_iff in Hc.
  destruct (JS.trimEnd s); rewrite ?Hc; simpl; now rewrite Hc.
Qed.

Lemma append_assoc (a b c : string) : ((a ++ b) ++ c = a ++ (b ++ c))%string.
Proof. induction a as [|x a IH]; simpl; [reflexivity|now rewrite IH]. Qed.

(** [trim] removes white space, and only white space, from both ends. *)
Lemma trim_spec (s : string) :
  (exists lead trail, s = (lead ++ JS.trim s ++ trail)%string /\
                      allWhite lead = true /\ allWhite trail = true) /\
  trimmed (JS.trim s) = true.
Proof.
  unfold JS.trim, trimmed.
  destruct (trimStart_spec s) as (lead & Hs & Hlead & Hfirst).
  destruct (trimEnd_spec (JS.trimStart s)) as (trail & Ht & Htrail & Hlast).
  split.
  - exists lead, trail. repeat split; try assumption.
    now rewrite <- Ht.
  - now rewrite (trimEnd_firstChar _ Hfirst), Hlast.
Qed.

(** C8.  Compilation reads the negated flag off a leading [!] and compiles
    the globs of the pattern, which is the text after that single [!] with
    the surrounding white space, and nothing else, removed. *)
Theorem expandGlobRule_negated_and_pattern :
  forall rule : string,
    expandGlobRule rule = map (matcherOf rule) (patternGlobs (rulePattern rule)) /\
    rule = ((if ruleNegated rule then "!" else "") ++ ruleRest rule)%string /\
    (exists lead trail,
        ruleRest rule = (lead ++ rulePattern rule ++ trail)%string /\
        allWhite lead = true /\ allWhite trail = true) /\
    trimmed (rulePattern rule) = true.
Proof.
  intro rule. split; [apply expandGlobRule_patternGlobs|]. split.
  - destruct rule as [|c rest]; [reflexivity|].
    destruct c as [[] [] [] [] [] [] [] []]; reflexivity.
  - apply trim_spec.
Qed.

Example expandGlobRule_negated_padded :
  expandGlobRule "!  docs/*.md " =
  [ {| neg := true; rx := Glob.globToRegExp "docs/*.md"; raw := "!  docs/*.md " |} ] /\
  map neg (expandGlobRule "!!x") = [true] /\
  map rx (expandGlobRule "!!x") = [Glob.globToRegExp "!x"].
Proof. repeat split; reflexivity. Qed.

(** C2.  A rule whose pattern ends with the separator compiles to exactly
    four matchers, each with the rule's negated flag; and the rule [build/]
    matches [build], [build/out.txt], [a/build] and [a/build/out.txt]. *)
Theorem expandGlobRule_directory_shorthand (rule : string)
    (Hdir : JS.endsWith (rulePattern rule) "/" = true) :
  (List.length (expandGlobRule rule) = 4 /\
   Forall (fun m => neg m = ruleNegated rule /\ raw m = rule)
          (expandGlobRule rule)) /\
  Forall (fun path => ruleMatches path "build/" = true)
         ["build"; "build/out.txt"; "a/build"; "a/build/out.txt"].
Proof.
  split.
  - rewrite expandGlobRule_patternGlobs. unfold patternGlobs. rewrite Hdir.
    split; [reflexivity|]. repeat constructor.
  - repeat constructor.
Qed.

Lemma expandGlobRule_directory_shorthand_witness :
  JS.endsWith (rulePattern "!build/") "/" = true /\
  List.length (expandGlobRule "!build/") = 4 /\
  Forall (fun m => neg m = true /\ raw m = "!build/") (expandGlobRule "!build/").
Proof.
  split; [reflexivity|].
  apply (expandGlobRule_directory_shorthand "!build/"). reflexivity.
Defined.

(** Version 0.1.0 compiles a rule in [loadExcludeRules] itself, without
    [expandGlobRule]: one matcher, an untrimmed pattern, no shorthand. *)
Remark compileRule_legacy :
  map (fun path => matches path (compileRule "build/"))
      ["build"; "build/out.txt"; "a/build"; "a/build/out.txt"]
  = [true; false; false; false] /\
  rx (compileRule "! docs") = Glob.globToRegExp " docs".
Proof. split; reflexivity. Qed.

(** ** Loading the rules *)

Lemma readLinesIfExists_returns (P : Platform) (path : string) :
  readLinesIfExists P path = Returns (linesAt P path).
Proof.
  unfold linesAt, readLinesIfExists.
  now destruct (readTextFileSync P path).
Qed.

Lemma firstChar_trimStart (line : string) :
  firstChar (JS.trimStart line) = firstNonWhite line.
Proof.
  induction line as [|c line IH]; simpl; [reflexivity|].
  now destruct (JS.isWhiteSpace c).
Qed.

Lemma firstNonWhite_nonWhite (line : string) :
  nonWhite (firstNonWhite line) = true.
Proof.
  induction line as [|c line IH]; simpl; [reflexivity|].
  destruct (JS.isWhiteSpace c) eqn:Hc; [exact IH|]. simpl. now rewrite Hc.
Qed.

Lemma firstChar_trimEnd (s : string) :
  nonWhite (firstChar s) = true -> firstChar (JS.trimEnd s) = firstChar s.
Proof.
  destruct s as [|c s]; simpl; [reflexivity|].
  intro Hc. apply negb_true_iff in Hc.
  destruct (JS.trimEnd s); [now rewrite Hc|reflexivity].
Qed.

Lemma firstChar_trim (line : string) :
  firstChar (JS.trim line) = firstNonWhite line.
Proof.
  unfold JS.trim. rewrite firstChar_trimEnd; rewrite firstChar_trimStart.
  - reflexivity.
  - apply firstNonWhite_nonWhite.
Qed.

Lemma startsWith_char (s : string) (c : ascii) :
  JS.startsWith s (String c "") =
  match firstChar s with Some d => Ascii.eqb d c | None => false end.
Proof.
  destruct s as [|d s]; [reflexivity|].
  unfold JS.startsWith. cbn [prefix firstChar].
  destruct (ascii_dec c d) as [<-|Hc].
  - rewrite Ascii.eqb_refl. now destruct s.
  - symmetry. apply Ascii.eqb_neq. congruence.
Qed.

(** The test of the loader, [!s || s.startsWith("#")], is the test of the
    rule file format. *)
Lemma dropped_blankOrComment (line : string) :
  negb (JS.truthy (JS.trim line)) || JS.startsWith (JS.trim line) "#"
  = blankOrComment line.
Proof.
  unfold blankOrComment. rewrite <- firstChar_trim, startsWith_char.
  now destruct (JS.trim line).
Qed.

Lemma pushLine_blankOrComment (rules : list string) (line : string) :
  pushLine rules line =
  if blankOrComment line then rules else rules ++ [JS.trim line].
Proof. unfold pushLine. now rewrite dropped_blankOrComment. Qed.

Lemma pushLines_significant (lines rules : list string) :
  pushLines lines rules = rules ++ map JS.trim (significant lines).
Proof.
  unfold pushLines. revert rules.
  induction lines as [|line lines IH]; intro rules; simpl.
  - now rewrite app_nil_r.
  - rewrite IH, pushLine_blankOrComment.
    destruct (blankOrComment line); simpl; [reflexivity|].
    now rewrite <- app_assoc.
Qed.

Lemma significant_app (l1 l2 : list string) :
  significant (l1 ++ l2) = significant l1 ++ significant l2.
Proof. apply filter_app. Qed.

Lemma pushLines_drop (before after rules : list string) (line : string) :
  blankOrComment line = true ->
  pushLines (before ++ line :: after) rules = pushLines (before ++ after) rules.
Proof.
  intro Hline. rewrite !pushLines_significant, !significant_app.
  simpl. now rewrite Hline.
Qed.

Lemma collectRules_significant (P : Platform) (noGlobal : bool) (rootDir : string) :
  collectRules P noGlobal rootDir =
  Returns (map JS.trim (significant (ruleLines P noGlobal rootDir))).
Proof.
  unfold collectRules, ruleLines.
  set (home := orString _ _).
  set (globalPath := if JS.truthy home then _ else _).
  rewrite significant_app, map_app.
  destruct (negb noGlobal && JS.truthy globalPath); simpl.
  - rewrite !readLinesIfExists_returns. simpl.
    now rewrite !pushLines_significant.
  - rewrite readLinesIfExists_returns. simpl.
    now rewrite pushLines_significant.
Qed.

Lemma significant_ruleLines_ext (P P' : Platform) (noGlobal : bool)
    (rootDir : string) :
  (forall key, envGet P' key = envGet P key) ->
  (forall a b, pathJoin P' a b = pathJoin P a b) ->
  (forall path, significant (linesAt P' path) = significant (linesAt P path)) ->
  significant (ruleLines P' noGlobal rootDir) =
  significant (ruleLines P noGlobal rootDir).
Proof.
  intros Henv Hjoin Hsig. unfold ruleLines.
  rewrite !Henv, !Hjoin, !significant_app, !Hsig.
  set (home := orString _ _).
  destruct (negb noGlobal && _); [now rewrite Hsig|reflexivity].
Qed.

(** C7.  The rules are the trimmed lines that are neither blank nor
    comments, so two rule sources that differ only in blank lines and
    comment lines give the same rule set, and the same verdict for every
    path. *)
Theorem blank_and_comment_lines_never_rules (P P' : Platform)
    (noGlobal : bool) (rootDir : string)
    (Henv : forall key, envGet P' key = envGet P key)
    (Hjoin : forall a b, pathJoin P' a b = pathJoin P a b)
    (Hsig : forall path,
        significant (linesAt P' path) = significant (linesAt P path)) :
  collectRules P noGlobal rootDir =
    Returns (map JS.trim (significant (ruleLines P noGlobal rootDir))) /\
  (forall rules line, blankOrComment line = true -> pushLine rules line = rules) /\
  (forall before line after rules,
      blankOrComment line = true ->
      pushLines (before ++ line :: after) rules = pushLines (before ++ after) rules) /\
  collectRules P' noGlobal rootDir = collectRules P noGlobal rootDir /\
  loadExcludeRules P' noGlobal rootDir = loadExcludeRules P noGlobal rootDir /\
  loadRuleSet P' noGlobal rootDir = loadRuleSet P noGlobal rootDir /\
  (forall cs cs' path,
      loadRuleSet P noGlobal rootDir = Returns cs ->
      loadRuleSet P' noGlobal rootDir = Returns cs' ->
      isIncluded path cs' = isIncluded path cs).
Proof.
  assert (Hcollect :
            collectRules P' noGlobal rootDir = collectRules P noGlobal rootDir).
  { rewrite !collectRules_significant.
    now rewrite (significant_ruleLines_ext P P'). }
  assert (Hset : loadRuleSet P' noGlobal rootDir = loadRuleSet P noGlobal rootDir).
  { unfold loadRuleSet. now rewrite Hcollect. }
  split; [apply collectRules_significant|].
  split; [intros rules line Hline; rewrite pushLine_blankOrComment; now rewrite Hline|].
  split; [intros before line after rules Hline; now apply pushLines_drop|].
  split; [exact Hcollect|].
  split; [unfold loadExcludeRules; now rewrite Hcollect|].
  split; [exact Hset|].
  intros cs cs' path Hcs Hcs'. rewrite Hset, Hcs in Hcs'.
  now injection Hcs' as <-.
Qed.

Lemma blank_and_comment_lines_never_rules_witness :
  linesAt (Examples.localOnly Examples.commented) "./.generate-toc-exclude"
    = ["# note"; ""; "build/"; ""] /\
  loadRuleSet (Examples.localOnly Examples.commented) false "."
    = loadRuleSet (Examples.localOnly "build/") false "." /\
  loadRuleSet (Examples.localOnly Examples.commented) false "."
    = Returns (expandGlobRule "build/").
Proof.
  split; [reflexivity|]. split; [|reflexivity].
  apply (blank_and_comment_lines_never_rules
           (Examples.localOnly "build/") (Examples.localOnly Examples.commented)
           false ".").
  - reflexivity.
  - reflexivity.
  - intro path. unfold linesAt, readLinesIfExists. simpl.
    destruct (path =? "./.generate-toc-exclude"); reflexivity.
Defined.

(** C9 as stated fails: another error than a missing file is swallowed
    too.  Here the local rule file exists and may not be read; the read
    throws, yet the loader gets no lines and returns an empty rule set. *)
Lemma readLinesIfExists_swallows_permission_denied :
  readTextFileSync Examples.unreadable "./.generate-toc-exclude"
    = Throws PermissionDenied /\
  readLinesIfExists Examples.unreadable "./.generate-toc-exclude" = Returns [] /\
  loadExcludeRules Examples.unreadable false "." = Returns [] /\
  ~ onlyMissingFileIgnored.
Proof.
  repeat split.
  intro H.
  destruct (H Examples.unreadable "./.generate-toc-exclude") as [_ Hother].
  specialize (Hother PermissionDenied).
  discriminate Hother; [discriminate|reflexivity].
Qed.

Lemma mapThrowing_all {A B E : Type} (callback : A -> B + E) (l : list A) :
  (forall a, In a l -> exists b, callback a = inl b) ->
  exists bs, mapThrowing callback l = inl bs.
Proof.
  induction l as [|a l IH]; intro Hall; [now exists []|].
  destruct (Hall a (or_introl eq_refl)) as (b & Hb).
  destruct IH as (bs & Hbs); [intros; apply Hall; now right|].
  exists (b :: bs). cbn [mapThrowing]. now rewrite Hb, Hbs.
Qed.

Lemma mapThrowing_first {A B E : Type} (callback : A -> B + E)
    (before after : list A) (a : A) (e : E) :
  (forall x, In x before -> exists b, callback x = inl b) ->
  callback a = inr e ->
  mapThrowing callback (before ++ a :: after) = inr e.
Proof.
  intros Hbefore Ha. induction before as [|x before IH].
  - cbn [app mapThrowing]. now rewrite Ha.
  - destruct (Hbefore x (or_introl eq_refl)) as (b & Hb).
    cbn [app mapThrowing]. rewrite Hb, IH; [reflexivity|].
    intros; apply Hbefore; now right.
Qed.

(** C9, amended.  A rule file that cannot be read, because it is missing or
    for any other reason, is an empty rule source: [readLinesIfExists]
    returns no lines, and collecting the rule lines always returns.  No
    other error of rule loading is swallowed: the first rule whose
    compilation throws ends [loadExcludeRules] with what was thrown, and
    loading returns a rule set only when every rule compiles. *)
Theorem rule_loading_swallows_read_errors_only (P : Platform) :
  (forall path err,
      readTextFileSync P path = Throws err ->
      readLinesIfExists P path = Returns []) /\
  (forall noGlobal rootDir,
      exists rules,
        collectRules P noGlobal rootDir = Returns rules /\
        forall (E : Type) (globToRegExp : string -> RegExp + E),
          (forall err,
              loadExcludeRulesWith globToRegExp P noGlobal rootDir
              <> ReadThrew err) /\
          ((forall rule, In rule rules ->
                         exists m, compileRuleWith globToRegExp rule = inl m) ->
           exists compiled,
             loadExcludeRulesWith globToRegExp P noGlobal rootDir
             = Loaded compiled) /\
          (forall before rule after e,
              rules = before ++ rule :: after ->
              (forall r, In r before ->
                         exists m, compileRuleWith globToRegExp r = inl m) ->
              compileRuleWith globToRegExp rule = inr e ->
              loadExcludeRulesWith globToRegExp P noGlobal rootDir
              = CompileThrew e)).
Proof.
  split.
  - intros path err Hfails. unfold readLinesIfExists. now rewrite Hfails.
  - intros noGlobal rootDir.
    exists (map JS.trim (significant (ruleLines P noGlobal rootDir))).
    split; [apply collectRules_significant|].
    intros E globToRegExp. unfold loadExcludeRulesWith.
    rewrite collectRules_significant. split; [|split].
    + intros err.
      now destruct (mapThrowing (compileRuleWith globToRegExp) _).
    + intro Hall. destruct (mapThrowing_all _ _ Hall) as (compiled & ->).
      now exists compiled.
    + intros before rule after e -> Hbefore Hrule.
      now rewrite (mapThrowing_first _ before after rule e Hbefore Hrule).
Qed.

Lemma rule_loading_swallows_read_errors_only_witness :
  readLinesIfExists (Examples.localOnly Samples.malformed)
    "/home/u/.generate-toc-exclude" = Returns [] /\
  readLinesIfExists Examples.unreadable "./.generate-toc-exclude" = Returns [] /\
  collectRules (Examples.localOnly Samples.malformed) false "."
    = Returns ["build/"; "[z-a]"] /\
  loadExcludeRulesWith Samples.strictGlob
    (Examples.localOnly Samples.malformed) false "."
    = CompileThrew "Invalid regular expression".
Proof.
  split; [|split; [|split; [reflexivity|]]].
  - apply (proj1 (rule_loading_swallows_read_errors_only
                    (Examples.localOnly Samples.malformed))
             "/home/u/.generate-toc-exclude" NotFound).
    reflexivity.
  - apply (proj1 (rule_loading_swallows_read_errors_only Examples.unreadable)
             "./.generate-toc-exclude" PermissionDenied).
    reflexivity.
  - destruct (proj2 (rule_loading_swallows_read_errors_only
                       (Examples.localOnly Samples.malformed)) false ".")
      as (rules & Hrules & Hload).
    vm_compute in Hrules. injection Hrules as <-.
    apply (proj2 (proj2 (Hload string Samples.strictGlob))
             ["build/"] "[z-a]" []).
    + reflexivity.
    + intros r [<-|[]]. eexists. reflexivity.
    + reflexivity.
Defined.

(** ** The tree *)

Lemma mapGet_mapSet_same (key : string) (value : Node) (m : list (string * Node)) :
  mapGet key (mapSet key value m) = Some value.
Proof.
  induction m as [|[k v] m IH]; simpl.
  - now rewrite String.eqb_refl.
  - destruct (k =? key) eqn:Hk; simpl; now rewrite Hk.
Qed.

Lemma mapGet_mapSet_other (key key' : string) (value : Node)
    (m : list (string * Node)) :
  key <> key' -> mapGet key' (mapSet key value m) = mapGet key' m.
Proof.
  intro Hne. induction m as [|[k v] m IH]; simpl.
  - destruct (String.eqb_spec key key'); [contradiction|reflexivity].
  - destruct (String.eqb_spec k key) as [->|Hk]; simpl.
    + destruct (String.eqb_spec key key'); [contradiction|reflexivity].
    + now rewrite IH.
Qed.

Lemma keys_mapSet (key : string) (value : Node) (m : list (string * Node)) :
  keys (mapSet key value m) = if mapHas key m then keys m else keys m ++ [key].
Proof.
  unfold mapHas, keys. induction m as [|[k v] m IH]; simpl.
  - reflexivity.
  - destruct (k =? key) eqn:Hk; simpl; [reflexivity|].
    rewrite IH. now destruct (mapGet key m).
Qed.

Lemma mapHas_mapSet (key : string) (value : Node) (m : list (string * Node)) :
  mapHas key (mapSet key value m) = true.
Proof. unfold mapHas. now rewrite mapGet_mapSet_same. Qed.

(** [insertPath] on a path of a single part and on a longer one. *)
Lemma insertPath_file (root : Node) (file : string) :
  insertPath root [file] =
  {| name := name root; children := children root;
     files := files root ++ [file] |}.
Proof. reflexivity. Qed.

Lemma insertPath_dir (root : Node) (dir part : string) (rest : list string) :
  insertPath root (dir :: part :: rest) =
  {| name := name root;
     children :=
       mapSet dir (insertPath (childOrNew dir root) (part :: rest))
         (if mapHas dir (children root) then children root
          else mapSet dir (createNode dir) (children root));
     files := files root |}.
Proof.
  cbn [insertPath]. unfold childOrNew, mapHas.
  destruct (mapGet dir (children root)) as [child|] eqn:Hget.
  - now rewrite Hget.
  - now rewrite mapGet_mapSet_same.
Qed.

Lemma mapGet_insertPath_dir (root : Node) (dir part : string)
    (rest : list string) (key : string) :
  mapGet key (children (insertPath root (dir :: part :: rest))) =
  if dir =? key then Some (insertPath (childOrNew dir root) (part :: rest))
  else mapGet key (children root).
Proof.
  rewrite insertPath_dir. cbn [children].
  destruct (String.eqb_spec dir key) as [->|Hne].
  - apply mapGet_mapSet_same.
  - rewrite mapGet_mapSet_other by assumption.
    destruct (mapHas dir (children root)); [reflexivity|].
    now apply mapGet_mapSet_other.
Qed.

Lemma keys_insertPath_dir (root : Node) (dir part : string) (rest : list string) :
  keys (children (insertPath root (dir :: part :: rest))) =
  if mapHas dir (children root) then keys (children root)
  else keys (children root) ++ [dir].
Proof.
  rewrite insertPath_dir. cbn [children]. rewrite keys_mapSet.
  destruct (mapHas dir (children root)) eqn:Hhas.
  - now rewrite Hhas.
  - now rewrite mapHas_mapSet, keys_mapSet, Hhas.
Qed.

(** The node [insertPath] is called on keeps its name, its files and the
    keys of its children, in order; it gains at most one of either. *)
Lemma insertPath_grows (root : Node) (pathParts : list string) :
  name (insertPath root pathParts) = name root /\
  (exists moreFiles,
      files (insertPath root pathParts) = files root ++ moreFiles) /\
  (exists moreKeys,
      keys (children (insertPath root pathParts)) =
      keys (children root) ++ moreKeys).
Proof.
  destruct pathParts as [|dir [|part rest]].
  - simpl. repeat split; exists []; now rewrite app_nil_r.
  - rewrite insertPath_file. simpl. repeat split.
    + now exists [dir].
    + exists []. now rewrite app_nil_r.
  - rewrite keys_insertPath_dir, insertPath_dir. simpl. repeat split.
    + exists []. now rewrite app_nil_r.
    + destruct (mapHas dir (children root)).
      * exists []. now rewrite app_nil_r.
      * now exists [dir].
Qed.

(** Frame: a node off the ancestor chain of the inserted path is the same
    node afterwards. *)
Lemma insertPath_frame (pathParts : list string) :
  forall (root : Node) (q : list string) (n : Node),
    getNode root q = Some n ->
    ~ properPrefix q pathParts ->
    getNode (insertPath root pathParts) q = Some n.
Proof.
  induction pathParts as [|dir rest IH]; intros root q n Hget Hoff.
  - exact Hget.
  - destruct q as [|key q].
    + elim Hoff. exists (dir :: rest). split; [discriminate|reflexivity].
    + destruct rest as [|part rest].
      * exact Hget.
      * cbn [getNode] in *. rewrite mapGet_insertPath_dir.
        destruct (String.eqb_spec dir key) as [->|Hne]; [|exact Hget].
        unfold childOrNew.
        destruct (mapGet key (children root)) as [child|]; [|discriminate].
        apply IH; [exact Hget|].
        intros (more & Hmore & Heq). apply Hoff.
        exists more. split; [exact Hmore|]. simpl. now rewrite Heq.
Qed.

(** Nothing is removed: a node that exists still exists, under the same
    name, with its files and the keys of its children as a prefix of what
    it has afterwards. *)
Lemma insertPath_keeps (pathParts : list string) :
  forall (root : Node) (q : list string) (n : Node),
    getNode root q = Some n ->
    exists n',
      getNode (insertPath root pathParts) q = Some n' /\
      name n' = name n /\
      (exists moreFiles, files n' = files n ++ moreFiles) /\
      (exists moreKeys, keys (children n') = keys (children n) ++ moreKeys).
Proof.
  induction pathParts as [|dir rest IH]; intros root q n Hget.
  - exists n. split; [exact Hget|].
    repeat split; exists []; now rewrite app_nil_r.
  - destruct q as [|key q].
    + injection Hget as <-. eexists. split; [reflexivity|].
      apply insertPath_grows.
    + destruct rest as [|part rest].
      * exists n. split; [exact Hget|].
        repeat split; exists []; now rewrite app_nil_r.
      * cbn [getNode] in *. rewrite mapGet_insertPath_dir.
        destruct (String.eqb_spec dir key) as [->|Hne].
        -- unfold childOrNew.
           destruct (mapGet key (children root)) as [child|]; [|discriminate].
           now apply IH.
        -- exists n. split; [exact Hget|].
           repeat split; exists []; now rewrite app_nil_r.
Qed.

(** C10.  [insertPath] changes nodes on the ancestor chain of the inserted
    path only: every other node is left as it was; no node, file or child
    key is removed anywhere; and the empty path changes nothing. *)
Theorem insertPath_frame_and_no_removal :
  forall (root : Node) (pathParts q : list string) (n : Node),
    getNode root q = Some n ->
    (~ properPrefix q pathParts ->
     getNode (insertPath root pathParts) q = Some n) /\
    (exists n',
        getNode (insertPath root pathParts) q = Some n' /\
        name n' = name n /\
        (exists moreFiles, files n' = files n ++ moreFiles) /\
        (exists moreKeys, keys (children n') = keys (children n) ++ moreKeys)) /\
    insertPath root [] = root.
Proof.
  intros root pathParts q n Hget. split; [|split].
  - now apply insertPath_frame.
  - now apply insertPath_keeps.
  - reflexivity.
Qed.

Lemma insertPath_frame_and_no_removal_witness :
  getNode (insertAll (createNode "") ["a/x.txt"; "b/y.txt"]) ["b"]
    = Some {| name := "b"; children := []; files := ["y.txt"] |} /\
  getNode (insertPath (insertAll (createNode "") ["a/x.txt"; "b/y.txt"])
                      ["a"; "c"; "z.txt"]) ["b"]
    = Some {| name := "b"; children := []; files := ["y.txt"] |}.
Proof.
  split; [reflexivity|].
  apply (insertPath_frame_and_no_removal
           (insertAll (createNode "") ["a/x.txt"; "b/y.txt"])
           ["a"; "c"; "z.txt"] ["b"]
           {| name := "b"; children := []; files := ["y.txt"] |}).
  - reflexivity.
  - intros (rest & _ & Heq). discriminate Heq.
Defined.

Lemma hasFile_createNode (n : string) (parts : list string) :
  hasFile (createNode n) parts = false.
Proof. destruct parts as [|part [|part' rest]]; reflexivity. Qed.

Lemma getNode_createNode (n : string) (q : list string) (node : Node) :
  getNode (createNode n) q = Some node -> q = [].
Proof. destruct q; [reflexivity|discriminate]. Qed.

Lemma existsb_snoc (part file : string) (l : list string) :
  existsb (String.eqb part) (l ++ [file]) =
  existsb (String.eqb part) l || (part =? file).
Proof. rewrite existsb_app. simpl. now rewrite orb_false_r. Qed.

Lemma hasFile_deeper (root : Node) (part part' : string) (rest : list string) :
  hasFile root (part :: part' :: rest) =
  match mapGet part (children root) with
  | Some child => hasFile child (part' :: rest)
  | None => false
  end.
Proof. reflexivity. Qed.

(** The files of the tree after [insertPath]: those it had, and the
    inserted one. *)
Lemma hasFile_insertPath (pathParts : list string) :
  forall (root : Node) (parts : list string),
    hasFile (insertPath root pathParts) parts = true <->
    hasFile root parts = true \/ (pathParts <> [] /\ parts = pathParts).
Proof.
  induction pathParts as [|dir rest IH]; intros root parts.
  - simpl. split; [now left|]. now intros [H|[H _]].
  - destruct rest as [|part rest].
    + rewrite insertPath_file.
      destruct parts as [|p [|p' parts]]; cbn [hasFile files children].
      * split; [discriminate|]. intros [H|[_ H]]; discriminate.
      * rewrite existsb_snoc, orb_true_iff. split.
        -- intros [H|H]; [now left|right].
           apply String.eqb_eq in H as ->. split; [discriminate|reflexivity].
        -- intros [H|[_ H]]; [now left|right].
           injection H as ->. apply String.eqb_refl.
      * split; [now left|]. intros [H|[_ H]]; [exact H|discriminate].
    + destruct parts as [|p [|p' parts]].
      * simpl. split; [discriminate|]. intros [H|[_ H]]; discriminate.
      * rewrite insertPath_dir. cbn [hasFile files].
        split; [now left|]. intros [H|[_ H]]; [exact H|discriminate].
      * rewrite !hasFile_deeper, mapGet_insertPath_dir.
        destruct (String.eqb_spec dir p) as [->|Hne]; cbv iota.
        -- rewrite IH. unfold childOrNew.
           destruct (mapGet p (children root)) as [child|].
           ++ split; (intros [H|[Hn H]]; [now left|right]).
              ** split; [discriminate|now rewrite H].
              ** split; [discriminate|now injection H as -> ->].
           ++ rewrite hasFile_createNode.
              split; (intros [H|[Hn H]]; [discriminate|right]).
              ** split; [discriminate|now rewrite H].
              ** split; [discriminate|now injection H as -> ->].
        -- split; [now left|]. intros [H|[_ H]]; [exact H|].
           injection H as -> _. now elim Hne.
Qed.

(** The nodes of the tree after [insertPath]: those it had, and the
    ancestor chain of the inserted path. *)
Lemma getNode_insertPath (pathParts : list string) :
  forall (root : Node) (q : list string),
    getNode (insertPath root pathParts) q <> None <->
    getNode root q <> None \/ properPrefix q pathParts.
Proof.
  induction pathParts as [|dir rest IH]; intros root q.
  - simpl. split; [now left|]. intros [H|(more & Hmore & Heq)]; [exact H|].
    destruct q; [now destruct more|discriminate].
  - destruct q as [|key q].
    + simpl. split; [left|]; discriminate.
    + destruct rest as [|part rest].
      * rewrite insertPath_file. cbn [getNode children].
        split; [now left|]. intros [H|(more & Hmore & Heq)]; [exact H|].
        injection Heq as _ Heq. destruct q; [now destruct more|discriminate].
      * cbn [getNode]. rewrite mapGet_insertPath_dir.
        destruct (String.eqb_spec dir key) as [->|Hne]; cbv iota.
        -- rewrite IH. unfold childOrNew.
           destruct (mapGet key (children root)) as [child|].
           ++ split; (intros [H|(more & Hmore & Heq)]; [now left|right]).
              ** exists more. split; [exact Hmore|]. simpl. now rewrite Heq.
              ** exists more. split; [exact Hmore|]. now injection Heq.
           ++ split.
              ** intros [H|(more & Hmore & Heq)]; right.
                 --- destruct (getNode (createNode key) q) as [node|] eqn:Hq;
                       [|now elim H].
                     apply getNode_createNode in Hq as ->.
                     exists (part :: rest). split; [discriminate|reflexivity].
                 --- exists more. split; [exact Hmore|]. simpl. now rewrite Heq.
              ** intros [H|(more & Hmore & Heq)]; [now elim H|right].
                 exists more. split; [exact Hmore|]. now injection Heq.
        -- split; [now left|]. intros [H|(more & Hmore & Heq)]; [exact H|].
           injection Heq as -> _. now elim Hne.
Qed.

Lemma insertAll_app (root : Node) (a b : list string) :
  insertAll root (a ++ b) = insertAll (insertAll root a) b.
Proof. apply fold_left_app. Qed.

Lemma split_not_nil (sep : ascii) (s : string) : JS.split sep s <> [].
Proof.
  destruct s as [|c s]; simpl; [discriminate|].
  destruct (Ascii.eqb c sep); [discriminate|].
  destruct (JS.split sep s); discriminate.
Qed.

Lemma hasFile_insertAll (rels : list string) :
  forall (root : Node) (parts : list string),
    hasFile (insertAll root rels) parts = true <->
    hasFile root parts = true \/
    exists rel, In rel rels /\ JS.split "/" rel = parts.
Proof.
  induction rels as [|rel rels IH]; intros root parts; simpl.
  - split; [now left|]. now intros [H|(rel & [] & _)].
  - unfold insertAll in *. simpl. rewrite IH, hasFile_insertPath. split.
    + intros [[H|[_ H]]|(rel' & Hin & Heq)].
      * now left.
      * right. exists rel. split; [now left|now symmetry].
      * right. exists rel'. split; [now right|exact Heq].
    + intros [H|(rel' & [<-|Hin] & Heq)].
      * left. now left.
      * left. right. split; [apply split_not_nil|now symmetry].
      * right. now exists rel'.
Qed.

Lemma getNode_insertAll (rels : list string) :
  forall (root : Node) (q : list string),
    getNode (insertAll root rels) q <> None <->
    getNode root q <> None \/
    exists rel, In rel rels /\ properPrefix q (JS.split "/" rel).
Proof.
  induction rels as [|rel rels IH]; intros root q; simpl.
  - split; [now left|]. now intros [H|(rel & [] & _)].
  - unfold insertAll in *. simpl. rewrite IH, getNode_insertPath. split.
    + intros [[H|H]|(rel' & Hin & Hpre)].
      * now left.
      * right. exists rel. split; [now left|exact H].
      * right. exists rel'. split; [now right|exact Hpre].
    + intros [H|(rel' & [<-|Hin] & Hpre)].
      * left. now left.
      * left. now right.
      * right. now exists rel'.
Qed.

(** ** Paths as strings and as lists of parts *)

Lemma join_cons_char (sep : string) (c : ascii) (piece : string)
    (pieces : list string) :
  JS.join sep (String c piece :: pieces) = String c (JS.join sep (piece :: pieces)).
Proof. destruct pieces; reflexivity. Qed.

Lemma join_cons (sep a : string) (l : list string) :
  l <> [] -> JS.join sep (a :: l) = (a ++ sep ++ JS.join sep l)%string.
Proof. destruct l; [now intros []|reflexivity]. Qed.

Lemma join_split (sep : ascii) (s : string) :
  JS.join (String sep "") (JS.split sep s) = s.
Proof.
  induction s as [|c s IH]; [reflexivity|]. simpl.
  destruct (Ascii.eqb_spec c sep) as [->|Hne].
  - rewrite join_cons by apply split_not_nil. now rewrite IH.
  - destruct (JS.split sep s) eqn:Hs; [now elim (split_not_nil sep s)|].
    now rewrite join_cons_char, IH.
Qed.

Lemma join_app (sep : string) (l1 l2 : list string) :
  l1 <> [] -> l2 <> [] ->
  JS.join sep (l1 ++ l2) = (JS.join sep l1 ++ sep ++ JS.join sep l2)%string.
Proof.
  intros H1 H2. induction l1 as [|a l1 IH]; [now elim H1|].
  destruct l1 as [|b l1].
  - simpl. destruct l2; [now elim H2|reflexivity].
  - change (JS.join sep ((a :: b :: l1) ++ l2))
      with (a ++ sep ++ JS.join sep ((b :: l1) ++ l2))%string.
    rewrite IH by discriminate.
    change (JS.join sep (a :: b :: l1))
      with (a ++ sep ++ JS.join sep (b :: l1))%string.
    now rewrite !append_assoc.
Qed.

Lemma split_app (sep : ascii) (a b : string) :
  JS.split sep (a ++ String sep b) = JS.split sep a ++ JS.split sep b.
Proof.
  induction a as [|c a IH]; simpl.
  - now rewrite Ascii.eqb_refl.
  - rewrite IH. destruct (Ascii.eqb c sep); [reflexivity|].
    destruct (JS.split sep a) eqn:Ha; [now elim (split_not_nil sep a)|].
    reflexivity.
Qed.

(** A name without separator is not of the form [a/rest]. *)
Lemma validName_no_slash (n a rest : string) :
  validName n = true -> n <> (a ++ "/" ++ rest)%string.
Proof.
  unfold validName. intros H Heq.
  apply andb_true_iff in H as [_ H]. subst n. clear -H.
  induction a as [|c a IH]; simpl in H.
  - discriminate.
  - apply andb_true_iff in H as [_ H]. now apply IH.
Qed.

(** Where [relDir/n] can be cut at a separator when [n] has none: at the
    last one, or inside [relDir]. *)
Lemma cut_child_path (n : string) :
  validName n = true ->
  forall relDir a rest : string,
    (relDir ++ "/" ++ n = a ++ "/" ++ rest)%string ->
    a = relDir \/ exists rest', relDir = (a ++ "/" ++ rest')%string.
Proof.
  intros Hn. induction relDir as [|x relDir IH]; intros a rest Heq.
  - destruct a as [|c a]; [now left|].
    injection Heq as _ Heq. now apply validName_no_slash in Heq.
  - destruct a as [|c a].
    + injection Heq as -> _. right. now exists relDir.
    + injection Heq as -> Heq.
      destruct (IH _ _ Heq) as [->|(rest' & ->)]; [now left|right].
      now exists rest'.
Qed.

(** ** The traversal *)

Lemma DirEntry_nested_ind (Q : DirEntry -> Prop) :
  (forall n, Q (File n)) ->
  (forall n entries, Forall Q entries -> Q (Directory n entries)) ->
  (forall n, Q (Symlink n)) ->
  forall entry, Q entry.
Proof.
  intros HF HD HS. fix IH 1. intros [n|n entries|n].
  - apply HF.
  - apply HD. induction entries as [|e entries IHentries]; constructor.
    + apply IH.
    + exact IHentries.
  - apply HS.
Qed.

Lemma walkEntry_unfold (compiledRules : list Matcher) (relDir : string)
    (entry : DirEntry) (w : Walk) :
  walkEntry compiledRules relDir entry w =
  let rel := if JS.truthy relDir then posixJoin relDir (entryName entry)
             else entryName entry in
  let w1 := {| root := root w; visited := visited w ++ [rel] |} in
  if negb (isIncluded rel compiledRules) then w1
  else match entry with
       | Directory _ entries => walkDir compiledRules entries rel w1
       | File _ => {| root := insertPath (root w1) (JS.split "/" rel);
                      visited := visited w1 |}
       | Symlink _ => w1
       end.
Proof. destruct entry; reflexivity. Qed.

Lemma scanEntry_unfold (compiledRules : list Matcher) (relDir : string)
    (entry : DirEntry) :
  scanEntry compiledRules relDir entry =
  let rel := if JS.truthy relDir then posixJoin relDir (entryName entry)
             else entryName entry in
  if negb (isIncluded rel compiledRules) then []
  else match entry with
       | Directory _ entries => scanDir compiledRules entries rel
       | File _ => [rel]
       | Symlink _ => []
       end.
Proof. destruct entry; reflexivity. Qed.


Section Traversal.

Variable compiledRules : list Matcher.

(** The path of an entry of an included directory has only included
    ancestors. *)
Lemma ancestorsIncluded_child (relDir n : string) :
  validName n = true ->
  relDir = "" \/ (isIncluded relDir compiledRules = true /\
                  ancestorsIncluded compiledRules relDir) ->
  ancestorsIncluded compiledRules
    (if JS.truthy relDir then posixJoin relDir n else n).
Proof.
  intros Hn Hdir a rest Heq.
  destruct relDir as [|c relDir]; simpl in Heq.
  - now apply validName_no_slash in Heq.
  - destruct Hdir as [Hdir|[Hincl Hanc]]; [discriminate|].
    apply (cut_child_path n Hn (String c relDir)) in Heq
      as [->|(rest' & Hcut)]; [exact Hincl|].
    exact (Hanc a rest' Hcut).
Qed.

Lemma walkDir_cons (entry : DirEntry) (entries : list DirEntry)
    (relDir : string) (w : Walk) :
  walkDir compiledRules (entry :: entries) relDir w =
  walkDir compiledRules entries relDir (walkEntry compiledRules relDir entry w).
Proof. reflexivity. Qed.

Lemma walkDir_spec (entries : list DirEntry) :
  Forall (walkSpec compiledRules) entries ->
  forall (relDir : string) (w : Walk),
    root (walkDir compiledRules entries relDir w) =
      insertAll (root w) (scanDir compiledRules entries relDir) /\
    exists new,
      visited (walkDir compiledRules entries relDir w) = visited w ++ new /\
      incl (scanDir compiledRules entries relDir) new /\
      (validEntries entries = true ->
       relDir = "" \/ (isIncluded relDir compiledRules = true /\
                       ancestorsIncluded compiledRules relDir) ->
       Forall (ancestorsIncluded compiledRules) new).
Proof.
  induction 1 as [|entry entries Hentry _ IH]; intros relDir w.
  - split; [reflexivity|]. exists []. repeat split.
    + simpl. now rewrite app_nil_r.
    + apply incl_nil_l.
    + constructor.
  - rewrite walkDir_cons.
    destruct (Hentry relDir w) as (Hroot1 & new1 & Hvis1 & Hincl1 & Hanc1).
    destruct (IH relDir (walkEntry compiledRules relDir entry w))
      as (Hroot2 & new2 & Hvis2 & Hincl2 & Hanc2).
    split.
    + rewrite Hroot2, Hroot1. unfold scanDir. simpl.
      now rewrite insertAll_app.
    + exists (new1 ++ new2). repeat split.
      * now rewrite Hvis2, Hvis1, app_assoc.
      * unfold scanDir. simpl. apply incl_app_app; assumption.
      * intros Hvalid Hdir. unfold validEntries in Hvalid. simpl in Hvalid.
        apply andb_true_iff in Hvalid as [Hv1 Hv2].
        apply Forall_app. split; [now apply Hanc1|now apply Hanc2].
Qed.

Lemma walkEntry_spec (entry : DirEntry) : walkSpec compiledRules entry.
Proof.
  induction entry as [n|n entries IH|n] using DirEntry_nested_ind;
    intros relDir w; rewrite walkEntry_unfold, scanEntry_unfold;
    cbv zeta; cbn [entryName];
    set (rel := if JS.truthy relDir then posixJoin relDir n else n);
    (assert (Hrel : validName n = true ->
                    relDir = "" \/ (isIncluded relDir compiledRules = true /\
                                    ancestorsIncluded compiledRules relDir) ->
                    ancestorsIncluded compiledRules rel)
      by (intros; now apply ancestorsIncluded_child));
    destruct (isIncluded rel compiledRules) eqn:Hincl; cbn [negb root visited].
  - (* an included file *)
    split; [reflexivity|]. exists [rel]. repeat split.
    + apply incl_refl.
    + intros Hvalid Hdir. simpl in Hvalid. rewrite andb_true_r in Hvalid.
      constructor; [now apply Hrel|constructor].
  - (* an excluded file *)
    split; [reflexivity|]. exists [rel]. repeat split.
    + apply incl_nil_l.
    + intros Hvalid Hdir. simpl in Hvalid. rewrite andb_true_r in Hvalid.
      constructor; [now apply Hrel|constructor].
  - (* an included directory *)
    destruct (walkDir_spec entries IH rel
                {| root := root w; visited := visited w ++ [rel] |})
      as (Hroot & new & Hvis & Hin & Hanc).
    split; [exact Hroot|]. exists (rel :: new). repeat split.
    + rewrite Hvis. cbn [visited]. now rewrite <- app_assoc.
    + now apply incl_tl.
    + intros Hvalid Hdir. cbn [validEntry entryName] in Hvalid.
      apply andb_true_iff in Hvalid as [Hname Hentries].
      assert (Hancrel : ancestorsIncluded compiledRules rel) by now apply Hrel.
      constructor; [exact Hancrel|].
      apply Hanc; [exact Hentries|]. right. now split.
  - (* an excluded directory: its entries are not read *)
    split; [reflexivity|]. exists [rel]. repeat split.
    + apply incl_nil_l.
    + intros Hvalid Hdir. cbn [validEntry entryName] in Hvalid.
      apply andb_true_iff in Hvalid as [Hname _].
      constructor; [now apply Hrel|constructor].
  - (* an included entry that is neither file nor directory *)
    split; [reflexivity|]. exists [rel]. repeat split.
    + apply incl_nil_l.
    + intros Hvalid Hdir. simpl in Hvalid. rewrite andb_true_r in Hvalid.
      constructor; [now apply Hrel|constructor].
  - split; [reflexivity|]. exists [rel]. repeat split.
    + apply incl_nil_l.
    + intros Hvalid Hdir. simpl in Hvalid. rewrite andb_true_r in Hvalid.
      constructor; [now apply Hrel|constructor].
Qed.

Lemma buildTreeWalk_spec (entries : list DirEntry) :
  root (buildTreeWalk entries compiledRules) =
    insertAll (createNode "") (scanDir compiledRules entries "") /\
  incl (scanDir compiledRules entries "")
       (visited (buildTreeWalk entries compiledRules)) /\
  (validEntries entries = true ->
   Forall (ancestorsIncluded compiledRules)
          (visited (buildTreeWalk entries compiledRules))).
Proof.
  unfold buildTreeWalk.
  destruct (walkDir_spec entries
              (proj2 (Forall_forall _ _) (fun e _ => walkEntry_spec e))
              "" {| root := createNode ""; visited := [] |})
    as (Hroot & new & Hvis & Hin & Hanc).
  rewrite Hvis. simpl. repeat split; try assumption.
  intro Hvalid. apply Hanc; [exact Hvalid|now left].
Qed.

End Traversal.

Lemma buildTree_insertAll (entries : list DirEntry) (compiledRules : list Matcher) :
  buildTree entries compiledRules =
  insertAll (createNode "") (scanDir compiledRules entries "").
Proof. apply buildTreeWalk_spec. Qed.

Lemma buildTree_nodes (entries : list DirEntry) (compiledRules : list Matcher)
    (dir : string) (dirs : list string) :
  getNode (buildTree entries compiledRules) (dir :: dirs) <> None <->
  exists rel, In rel (scanDir compiledRules entries "") /\
              properPrefix (dir :: dirs) (JS.split "/" rel).
Proof.
  rewrite buildTree_insertAll, getNode_insertAll.
  split; [|now right]. intros [H|H]; [now elim H|exact H].
Qed.

Lemma buildTree_files (entries : list DirEntry) (compiledRules : list Matcher)
    (parts : list string) :
  hasFile (buildTree entries compiledRules) parts = true <->
  exists rel, In rel (scanDir compiledRules entries "") /\
              JS.split "/" rel = parts.
Proof.
  rewrite buildTree_insertAll, hasFile_insertAll, hasFile_createNode.
  split; [|now right]. intros [H|H]; [discriminate|exact H].
Qed.

(** C6.  The tree is the result of inserting the included files of the
    scan, and a node exists exactly when it lies on the ancestor chain of
    one of them; so a directory below which the scan yields no included
    file has no node. *)
Theorem buildTree_nodes_lazily_created :
  forall (entries : list DirEntry) (compiledRules : list Matcher)
         (dir : string) (dirs : list string),
    buildTree entries compiledRules =
      insertAll (createNode "") (scanDir compiledRules entries "") /\
    (getNode (buildTree entries compiledRules) (dir :: dirs) <> None <->
     exists rel, In rel (scanDir compiledRules entries "") /\
                 properPrefix (dir :: dirs) (JS.split "/" rel)) /\
    ((forall rel, In rel (scanDir compiledRules entries "") ->
                  ~ properPrefix (dir :: dirs) (JS.split "/" rel)) ->
     getNode (buildTree entries compiledRules) (dir :: dirs) = None).
Proof.
  intros entries compiledRules dir dirs.
  split; [apply buildTree_insertAll|]. split; [apply buildTree_nodes|].
  intro Hnone.
  destruct (getNode (buildTree entries compiledRules) (dir :: dirs))
    as [node|] eqn:Hget; [|reflexivity].
  assert (Hsome : getNode (buildTree entries compiledRules) (dir :: dirs) <> None)
    by now rewrite Hget.
  apply buildTree_nodes in Hsome as (rel & Hin & Hpre).
  now elim (Hnone rel Hin).
Qed.

Lemma buildTree_nodes_lazily_created_witness :
  scanDir (compileRuleSet ["**/*.log"]) Examples.logsProject "" = ["README.md"] /\
  isIncluded "logs" (compileRuleSet ["**/*.log"]) = true /\
  getNode (buildTree Examples.logsProject (compileRuleSet ["**/*.log"])) ["logs"]
    = None.
Proof.
  split; [reflexivity|]. split; [reflexivity|].
  apply (buildTree_nodes_lazily_created
           Examples.logsProject (compileRuleSet ["**/*.log"]) "logs" []).
  intros rel Hin (more & _ & Heq).
  vm_compute in Hin. destruct Hin as [<-|[]]. discriminate Heq.
Defined.

(** An excluded directory is skipped whatever it holds: its entries are
    not read. *)
Lemma walkEntry_excluded_directory (compiledRules : list Matcher)
    (relDir n : string) (entries : list DirEntry) (w : Walk) :
  isIncluded (if JS.truthy relDir then posixJoin relDir n else n)
             compiledRules = false ->
  walkEntry compiledRules relDir (Directory n entries) w =
  {| root := root w;
     visited := visited w ++ [if JS.truthy relDir then posixJoin relDir n else n] |}.
Proof.
  intro Hexcluded. rewrite walkEntry_unfold. cbv zeta. cbn [entryName].
  now rewrite Hexcluded.
Qed.

Lemma scanned_ancestorsIncluded (entries : list DirEntry)
    (compiledRules : list Matcher) (rel : string) :
  validEntries entries = true ->
  In rel (scanDir compiledRules entries "") ->
  ancestorsIncluded compiledRules rel.
Proof.
  intros Hvalid Hin.
  destruct (buildTreeWalk_spec compiledRules entries) as (_ & Hincl & Hanc).
  specialize (Hanc Hvalid). rewrite Forall_forall in Hanc.
  apply Hanc, Hincl, Hin.
Qed.

(** C1.  Below an excluded directory [d] nothing is visited and nothing
    appears in the tree, neither as a file nor as a node, whatever the
    rules say about the path [d/rest] itself. *)
Theorem excluded_directory_is_pruned (entries : list DirEntry)
    (compiledRules : list Matcher) (d rest : string)
    (Hvalid : validEntries entries = true)
    (Hexcluded : isIncluded d compiledRules = false) :
  ~ In (d ++ "/" ++ rest)%string (visited (buildTreeWalk entries compiledRules)) /\
  hasFile (buildTree entries compiledRules) (JS.split "/" (d ++ "/" ++ rest)) = false /\
  getNode (buildTree entries compiledRules) (JS.split "/" (d ++ "/" ++ rest)) = None.
Proof.
  assert (Hnot : forall rel, ancestorsIncluded compiledRules rel ->
                             forall more, rel <> (d ++ "/" ++ more)%string).
  { intros rel Hanc more ->.
    rewrite (Hanc d more eq_refl) in Hexcluded. discriminate. }
  split; [|split].
  - intro Hin.
    destruct (buildTreeWalk_spec compiledRules entries) as (_ & _ & Hanc).
    specialize (Hanc Hvalid). rewrite Forall_forall in Hanc.
    now apply (Hnot _ (Hanc _ Hin) rest).
  - destruct (hasFile _ _) eqn:Hfile; [|reflexivity].
    apply buildTree_files in Hfile as (rel & Hin & Hsplit).
    apply (f_equal (JS.join "/")) in Hsplit. rewrite !join_split in Hsplit.
    elim (Hnot rel (scanned_ancestorsIncluded _ _ _ Hvalid Hin) rest Hsplit).
  - destruct (JS.split "/" (d ++ "/" ++ rest)) as [|dir dirs] eqn:Hq;
      [now elim (split_not_nil "/" (d ++ "/" ++ rest))|].
    destruct (getNode _ _) eqn:Hnode; [|reflexivity].
    assert (Hsome : getNode (buildTree entries compiledRules) (dir :: dirs) <> None)
      by now rewrite Hnode.
    apply buildTree_nodes in Hsome as (rel & Hin & more & Hmore & Hsplit).
    apply (f_equal (JS.join "/")) in Hsplit.
    rewrite join_split, join_app, <- Hq, join_split in Hsplit
      by (assumption || discriminate).
    rewrite append_assoc in Hsplit. simpl in Hsplit.
    elim (Hnot rel (scanned_ancestorsIncluded _ _ _ Hvalid Hin) _ Hsplit).
Qed.

Lemma excluded_directory_is_pruned_witness :
  isIncluded "build" (compileRuleSet ["build/"; "!build/keep.txt"]) = false /\
  isIncluded "build/keep.txt" (compileRuleSet ["build/"; "!build/keep.txt"]) = true /\
  ~ In "build/keep.txt"
       (visited (buildTreeWalk Examples.keepProject
                   (compileRuleSet ["build/"; "!build/keep.txt"]))) /\
  hasFile (buildTree Examples.keepProject
             (compileRuleSet ["build/"; "!build/keep.txt"]))
          ["build"; "keep.txt"] = false /\
  getNode (buildTree Examples.keepProject
             (compileRuleSet ["build/"; "!build/keep.txt"]))
          ["build"; "keep.txt"] = None.
Proof.
  split; [reflexivity|]. split; [reflexivity|].
  apply (excluded_directory_is_pruned Examples.keepProject
           (compileRuleSet ["build/"; "!build/keep.txt"]) "build" "keep.txt").
  - reflexivity.
  - reflexivity.
Defined.

(** The scenarios of the design document. *)
Example scenario_build_directory :
  buildTree Examples.project (compileRuleSet ["build/"]) =
  {| name := "";
     children := [("a", {| name := "a"; children := []; files := ["x.txt"] |})];
     files := ["README.md"] |}.
Proof. reflexivity. Qed.

Example scenario_important_log :
  filter (fun file => isIncluded file (compileRuleSet ["*.log"; "!important.log"]))
         ["debug.log"; "important.log"; "notes.txt"]
  = ["important.log"; "notes.txt"].
Proof. reflexivity. Qed.

(* ================================================================= *)
(** * Further properties *)

(** ** Command line *)

Lemma last_cons {A : Type} (a d : A) (l : list A) :
  last (a :: l) d = last l a.
Proof.
  revert a d. induction l as [|b l IH]; intros a d; [reflexivity|].
  change (last (a :: b :: l) d) with (last (b :: l) d).
  now rewrite (IH b d), (IH b a).
Qed.

Lemma parseArgs_from (args : list string) (out : CLI.Args) :
  fold_left CLI.parseArg args out =
  {| CLI.noGlobal :=
       CLI.noGlobal out || existsb (String.eqb "--no-global") args;
     CLI.root :=
       last (filter (fun a => negb (a =? "--no-global")) args) (CLI.root out) |}.
Proof.
  revert out. induction args as [|a args IH]; intro out.
  - destruct out. simpl. now rewrite orb_false_r.
  - cbn [fold_left]. rewrite IH. unfold CLI.parseArg.
    cbn [existsb filter]. rewrite (String.eqb_sym "--no-global" a).
    destruct (a =? "--no-global"); cbn [negb CLI.noGlobal CLI.root].
    + now rewrite orb_true_r.
    + now rewrite last_cons.
Qed.

(** X1.  [parseArgs] in closed form: the flag is set when [--no-global]
    occurs anywhere among the arguments, and the root is the last argument
    that is not this flag, [.] when there is none. *)
Theorem parseArgs_flag_and_last_root :
  forall args : list string,
    CLI.parseArgs args =
    {| CLI.noGlobal := existsb (String.eqb "--no-global") args;
       CLI.root := last (filter (fun a => negb (a =? "--no-global")) args) "." |}.
Proof. intro args. unfold CLI.parseArgs. now rewrite parseArgs_from. Qed.

(** ** Escaping *)

Lemma replaceAll_app (c : ascii) (replacement a b : string) :
  replaceAll c replacement (a ++ b) =
  (replaceAll c replacement a ++ replaceAll c replacement b)%string.
Proof.
  induction a as [|x a IH]; simpl; [reflexivity|].
  rewrite IH. destruct (Ascii.eqb x c); [|reflexivity].
  now rewrite append_assoc.
Qed.

Lemma escapeHtml_app (a b : string) :
  escapeHtml (a ++ b) = (escapeHtml a ++ escapeHtml b)%string.
Proof. unfold escapeHtml. now rewrite !replaceAll_app. Qed.

Lemma escapeHtml_char (c : ascii) :
  escapeHtml (String c "") = escapeChar c.
Proof. destruct c as [[] [] [] [] [] [] [] []]; reflexivity. Qed.

Lemma escapeHtml_escapeEach (s : string) : escapeHtml s = escapeEach s.
Proof.
  induction s as [|c s IH]; [reflexivity|].
  change (String c s) with (String c "" ++ s)%string.
  rewrite escapeHtml_app, escapeHtml_char, IH. reflexivity.
Qed.

Lemma occurs_app (c : ascii) (a b : string) :
  occurs c (a ++ b) = occurs c a || occurs c b.
Proof.
  unfold occurs. induction a as [|x a IH]; simpl; [reflexivity|].
  now rewrite IH, orb_assoc.
Qed.

Lemma escapeChar_safe (c : ascii) :
  occurs "<" (escapeChar c) = false /\ occurs ">" (escapeChar c) = false /\
  occurs dquote (escapeChar c) = false.
Proof. destruct c as [[] [] [] [] [] [] [] []]; repeat split; reflexivity. Qed.

(** X2.  [escapeHtml] works as a single pass that replaces each of the four
    characters by its entity and keeps every other character, so the
    ampersand of an entity is not escaped again; it distributes over
    concatenation, and its result holds no [<], no [>] and no double
    quote. *)
Theorem escapeHtml_single_pass_and_safe :
  forall s t : string,
    escapeHtml s = escapeEach s /\
    escapeHtml (s ++ t) = (escapeHtml s ++ escapeHtml t)%string /\
    occurs "<" (escapeHtml s) = false /\
    occurs ">" (escapeHtml s) = false /\
    occurs dquote (escapeHtml s) = false.
Proof.
  intros s t. split; [apply escapeHtml_escapeEach|].
  split; [apply escapeHtml_app|].
  rewrite escapeHtml_escapeEach.
  induction s as [|c s (IH1 & IH2 & IH3)]; [repeat split; reflexivity|].
  destruct (escapeChar_safe c) as (H1 & H2 & H3).
  cbn [escapeEach]. rewrite !occurs_app, H1, H2, H3, IH1, IH2, IH3.
  repeat split; reflexivity.
Qed.

Lemma escapeChar_cases (c : ascii) :
  (c = "&"%char /\ escapeChar c = "&amp;") \/
  (c = "<"%char /\ escapeChar c = "&lt;") \/
  (c = ">"%char /\ escapeChar c = "&gt;") \/
  (c = dquote /\ escapeChar c = "&quot;") \/
  (c <> "&"%char /\ escapeChar c = String c "").
Proof.
  unfold escapeChar.
  destruct (Ascii.eqb_spec c "&"); [now left|].
  destruct (Ascii.eqb_spec c "<"); [right; now left|].
  destruct (Ascii.eqb_spec c ">"); [right; right; now left|].
  destruct (Ascii.eqb_spec c dquote); [right; right; right; now left|].
  right; right; right; right. now split.
Qed.

Lemma escapeChar_head (x y : ascii) (a b : string) :
  (escapeChar x ++ a = escapeChar y ++ b)%string -> x = y /\ a = b.
Proof.
  destruct (escapeChar_cases x) as [[-> ->]|[[-> ->]|[[-> ->]|[[-> ->]|[Hx ->]]]]];
    destruct (escapeChar_cases y) as [[-> ->]|[[-> ->]|[[-> ->]|[[-> ->]|[Hy ->]]]]];
    simpl; intro H; try discriminate H;
    try (injection H as H; now split);
    try (injection H as H1 H2; subst; now split);
    try (injection H as H1 H2; subst; now elim Hx);
    try (injection H as H1 H2; subst; now elim Hy).
Qed.

(** X3.  [escapeHtml] loses nothing: two strings with the same escaped form
    are the same string. *)
Theorem escapeHtml_injective :
  forall a b : string, escapeHtml a = escapeHtml b -> a = b.
Proof.
  intros a b. rewrite !escapeHtml_escapeEach. revert b.
  induction a as [|x a IH]; intros [|y b] H.
  - reflexivity.
  - exfalso. simpl in H.
    destruct (escapeChar_cases y) as [[_ E]|[[_ E]|[[_ E]|[[_ E]|[_ E]]]]];
      rewrite E in H; discriminate H.
  - exfalso. simpl in H.
    destruct (escapeChar_cases x) as [[_ E]|[[_ E]|[[_ E]|[[_ E]|[_ E]]]]];
      rewrite E in H; discriminate H.
  - simpl in H. apply escapeChar_head in H as [-> H].
    now rewrite (IH b H).
Qed.

Lemma escapeHtml_injective_witness :
  escapeHtml "a<b" = escapeHtml "a<b" /\ "a<b" = "a<b".
Proof.
  split; [reflexivity|].
  apply (escapeHtml_injective "a<b" "a<b"). reflexivity.
Defined.

(** ** More on the decision *)

Lemma posixish_backslashToSlash (p : string) :
  posixish p = backslashToSlash p.
Proof.
  unfold posixish. induction p as [|c p IH]; [reflexivity|]. simpl.
  destruct (Ascii.eqb c "\").
  - rewrite join_cons by apply split_not_nil. now rewrite IH.
  - destruct (JS.split "\" p) eqn:Hp; [now elim (split_not_nil "\" p)|].
    now rewrite join_cons_char, IH.
Qed.

Lemma backslashToSlash_idem (p : string) :
  backslashToSlash (backslashToSlash p) = backslashToSlash p.
Proof.
  induction p as [|c p IH]; [reflexivity|]. simpl. rewrite IH.
  destruct (Ascii.eqb c "\") eqn:Hc; [reflexivity|now rewrite Hc].
Qed.

Lemma backslashToSlash_clean (p : string) :
  occurs "\" (backslashToSlash p) = false.
Proof.
  unfold occurs. induction p as [|c p IH]; [reflexivity|].
  cbn [backslashToSlash list_ascii_of_string existsb].
  rewrite IH, orb_false_r.
  destruct (Ascii.eqb_spec c "\") as [->|Hc]; [reflexivity|].
  apply Ascii.eqb_neq. congruence.
Qed.

(** X4.  The engine tests a path with every backslash turned into a slash:
    the subject of the matchers holds no backslash, and a path written with
    backslashes gets the verdict of the same path written with slashes. *)
Theorem isIncluded_backslash_as_slash :
  forall (p : string) (cs : list Matcher),
    posixish p = backslashToSlash p /\
    occurs "\" (posixish p) = false /\
    isIncluded (backslashToSlash p) cs = isIncluded p cs.
Proof.
  intros p cs. split; [apply posixish_backslashToSlash|]. split.
  - rewrite posixish_backslashToSlash. apply backslashToSlash_clean.
  - unfold isIncluded.
    now rewrite !posixish_backslashToSlash, backslashToSlash_idem.
Qed.

(** X5.  A path is excluded only when a rule that is not a negation matches
    it: rules that are all negations exclude nothing. *)
Theorem isIncluded_false_needs_plain_match (p : string) (cs : list Matcher)
    (Hexcluded : isIncluded p cs = false) :
  exists m, In m cs /\ neg m = false /\ matches p m = true.
Proof.
  rewrite isIncluded_lastMatching in Hexcluded. unfold lastMatching in Hexcluded.
  destruct (find (matches p) (rev cs)) as [m|] eqn:Hfind; [|discriminate].
  apply find_some in Hfind as [Hin Hm].
  exists m. split; [now apply in_rev|]. now split.
Qed.

Lemma isIncluded_false_needs_plain_match_witness :
  isIncluded "debug.log" (compileRuleSet ["!keep.log"; "*.log"]) = false /\
  exists m, In m (compileRuleSet ["!keep.log"; "*.log"]) /\
            neg m = false /\ matches "debug.log" m = true.
Proof.
  split; [reflexivity|].
  apply (isIncluded_false_needs_plain_match
           "debug.log" (compileRuleSet ["!keep.log"; "*.log"])).
  reflexivity.
Defined.

Lemma ruleRest_plain (rule : string) :
  ruleNegated rule = false -> ruleRest rule = rule.
Proof.
  destruct rule as [|c rest]; [reflexivity|].
  destruct c as [[] [] [] [] [] [] [] []]; try reflexivity. discriminate.
Qed.

Lemma existsb_matches_rx (p : string) (ms : list Matcher) :
  existsb (matches p) ms =
  existsb (fun r => RegExpSem.test r (posixish p)) (map rx ms).
Proof. induction ms as [|m ms IH]; simpl; [reflexivity|now rewrite IH]. Qed.

Lemma rx_expandGlobRule (rule : string) :
  map rx (expandGlobRule rule) =
  map Glob.globToRegExp (patternGlobs (rulePattern rule)).
Proof. rewrite expandGlobRule_patternGlobs, map_map. reflexivity. Qed.

(** X6.  Putting [!] before a rule keeps what it matches and flips what it
    decides: the negation compiles to the same expressions, and appended to
    a rule set it re-includes exactly the paths the rule matches. *)
Theorem negation_reincludes_what_rule_matches (rule : string)
    (Hplain : ruleNegated rule = false) :
  forall (p : string) (cs : list Matcher),
    map rx (expandGlobRule (String "!" rule)) = map rx (expandGlobRule rule) /\
    ruleMatches p (String "!" rule) = ruleMatches p rule /\
    isIncluded p (cs ++ expandGlobRule (String "!" rule)) =
      ruleMatches p rule || isIncluded p cs /\
    isIncluded p (cs ++ expandGlobRule rule) =
      negb (ruleMatches p rule) && isIncluded p cs.
Proof.
  intros p cs.
  assert (Hrx : map rx (expandGlobRule (String "!" rule))
                = map rx (expandGlobRule rule)).
  { rewrite !rx_expandGlobRule. unfold rulePattern.
    now rewrite (ruleRest_plain rule Hplain). }
  assert (Hm : ruleMatches p (String "!" rule) = ruleMatches p rule).
  { unfold ruleMatches. now rewrite !existsb_matches_rx, Hrx. }
  split; [exact Hrx|]. split; [exact Hm|]. split.
  - rewrite isIncluded_app.
    rewrite (fold_stepVerdict_uniform p _ true)
      by (intros m Hin; now rewrite (expandGlobRule_neg _ _ Hin)).
    fold (ruleMatches p (String "!" rule)). rewrite Hm.
    now destruct (ruleMatches p rule).
  - rewrite isIncluded_app.
    rewrite (fold_stepVerdict_uniform p _ false)
      by (intros m Hin; now rewrite (expandGlobRule_neg _ _ Hin)).
    fold (ruleMatches p rule).
    now destruct (ruleMatches p rule).
Qed.

Lemma negation_reincludes_what_rule_matches_witness :
  ruleNegated "*.log" = false /\
  isIncluded "a.log" (compileRuleSet ["*.log"]) = false /\
  isIncluded "a.log" (compileRuleSet ["*.log"] ++ expandGlobRule "!*.log") = true.
Proof.
  split; [reflexivity|]. split; [reflexivity|].
  destruct (negation_reincludes_what_rule_matches "*.log" eq_refl
              "a.log" (compileRuleSet ["*.log"])) as (_ & _ & H & _).
  rewrite H. reflexivity.
Defined.

Lemma test_never (s : string) : RegExpSem.test RNever s = false.
Proof. induction s as [|c s IH]; [reflexivity|exact IH]. Qed.

(** X7.  A rule with an empty pattern, which among loaded rules is the line
    [!] alone, matches no path and changes no verdict. *)
Theorem empty_pattern_matches_nothing (rule : string)
    (Hempty : rulePattern rule = "") :
  forall (p : string) (cs : list Matcher),
    ruleMatches p rule = false /\
    isIncluded p (cs ++ expandGlobRule rule) = isIncluded p cs.
Proof.
  intros p cs.
  assert (Hm : ruleMatches p rule = false).
  { unfold ruleMatches. rewrite existsb_matches_rx, rx_expandGlobRule, Hempty.
    simpl. now rewrite test_never. }
  split; [exact Hm|].
  rewrite isIncluded_app. now apply fold_stepVerdict_none.
Qed.

Lemma empty_pattern_matches_nothing_witness :
  rulePattern "!" = "" /\
  ruleMatches "anything" "!" = false /\
  isIncluded "a.log" (compileRuleSet ["*.log"] ++ expandGlobRule "!") =
  isIncluded "a.log" (compileRuleSet ["*.log"]).
Proof.
  split; [reflexivity|].
  split.
  - apply (empty_pattern_matches_nothing "!" eq_refl "anything" []).
  - apply (empty_pattern_matches_nothing "!" eq_refl "a.log"
             (compileRuleSet ["*.log"])).
Defined.

(** ** More on loading the rules *)

Lemma kept_line_ruleLine (line : string) :
  blankOrComment line = false -> ruleLine (JS.trim line) = true.
Proof.
  intro Hkept. rewrite <- dropped_blankOrComment in Hkept.
  apply orb_false_iff in Hkept as [Hempty Hcomment].
  unfold ruleLine. rewrite Hcomment. apply negb_false_iff in Hempty.
  rewrite Hempty. now rewrite (proj2 (trim_spec line)).
Qed.

Lemma significant_ruleLines (lines : list string) :
  Forall (fun rule => ruleLine rule = true) (map JS.trim (significant lines)).
Proof.
  unfold significant. induction lines as [|line lines IH]; simpl.
  - constructor.
  - destruct (blankOrComment line) eqn:Hline; simpl; [exact IH|].
    constructor; [now apply kept_line_ruleLine|exact IH].
Qed.

Lemma mapThrowing_raw {E : Type} (globToRegExp : string -> RegExp + E)
    (rules : list string) :
  forall compiled,
    mapThrowing (compileRuleWith globToRegExp) rules = inl compiled ->
    map raw compiled = rules.
Proof.
  induction rules as [|rule rules IH]; intros compiled H; cbn [mapThrowing] in H.
  - now injection H as <-.
  - unfold compileRuleWith at 1 in H.
    destruct (globToRegExp _) as [rx|e]; [|discriminate].
    destruct (mapThrowing (compileRuleWith globToRegExp) rules) as [ms|e];
      [|discriminate].
    injection H as <-. cbn [map raw]. now rewrite (IH ms eq_refl).
Qed.

(** X8.  Collecting the rule lines always returns, and what it hands to the
    compiler are rule lines: not empty, without white space at either end,
    and not starting with [#].  When [loadExcludeRules] (version 0.1.0)
    returns, it has compiled one matcher per line, in order, whose [raw] is
    that line. *)
Theorem loaded_rules_are_rule_lines :
  forall (P : Platform) (noGlobal : bool) (rootDir : string),
    exists rules,
      collectRules P noGlobal rootDir = Returns rules /\
      Forall (fun rule => ruleLine rule = true) rules /\
      forall (E : Type) (globToRegExp : string -> RegExp + E) compiled,
        loadExcludeRulesWith globToRegExp P noGlobal rootDir = Loaded compiled ->
        map raw compiled = rules.
Proof.
  intros P noGlobal rootDir.
  exists (map JS.trim (significant (ruleLines P noGlobal rootDir))).
  split; [apply collectRules_significant|].
  split; [apply significant_ruleLines|].
  intros E globToRegExp compiled. unfold loadExcludeRulesWith.
  rewrite collectRules_significant.
  destruct (mapThrowing (compileRuleWith globToRegExp) _) as [ms|e] eqn:Hms;
    [|discriminate].
  intro H. injection H as <-. now apply (mapThrowing_raw globToRegExp).
Qed.

Lemma loaded_rules_are_rule_lines_witness :
  exists compiled,
    loadExcludeRulesWith Samples.totalGlob
      (Examples.localOnly Examples.commented) false "." = Loaded compiled /\
    map raw compiled = ["build/"].
Proof.
  eexists. split; [reflexivity|].
  destruct (loaded_rules_are_rule_lines
              (Examples.localOnly Examples.commented) false ".")
    as (rules & Hrules & _ & Hraw).
  vm_compute in Hrules. injection Hrules as <-.
  apply (Hraw string Samples.totalGlob). reflexivity.
Defined.

(** With the model's compiler, which never throws, this is
    [loadExcludeRules]. *)
Remark loadExcludeRulesWith_total (P : Platform) (noGlobal : bool)
    (rootDir : string) :
  exists rules,
    collectRules P noGlobal rootDir = Returns rules /\
    loadExcludeRules P noGlobal rootDir = Returns (map compileRule rules) /\
    loadExcludeRulesWith Samples.totalGlob P noGlobal rootDir
    = Loaded (map compileRule rules).
Proof.
  exists (map JS.trim (significant (ruleLines P noGlobal rootDir))).
  split; [apply collectRules_significant|].
  unfold loadExcludeRules, loadExcludeRulesWith.
  rewrite collectRules_significant. split; [reflexivity|].
  generalize (map JS.trim (significant (ruleLines P noGlobal rootDir))) as rules.
  induction rules as [|rule rules IH]; [reflexivity|].
  cbn [mapThrowing map]. unfold compileRuleWith at 1, Samples.totalGlob at 1.
  destruct (mapThrowing (compileRuleWith Samples.totalGlob) rules) as [ms|e];
    [|discriminate]. injection IH as ->. reflexivity.
Qed.

Lemma orString_falsy (a : option string) (d : string) :
  a = None \/ a = Some "" -> orString a d = d.
Proof. now intros [->| ->]. Qed.

(** X9.  Without a home directory, that is when [HOME] and [USERPROFILE]
    are both unset or empty, no global rule file is read: the rules are
    those loaded with [--no-global]. *)
Theorem no_home_no_global_rules (P : Platform) (rootDir : string)
    (Hhome : envGet P "HOME" = None \/ envGet P "HOME" = Some "")
    (Hprofile : envGet P "USERPROFILE" = None \/ envGet P "USERPROFILE" = Some "") :
  collectRules P false rootDir = collectRules P true rootDir /\
  loadExcludeRules P false rootDir = loadExcludeRules P true rootDir.
Proof.
  assert (H : collectRules P false rootDir = collectRules P true rootDir).
  { unfold collectRules.
    now rewrite (orString_falsy _ _ Hhome), (orString_falsy _ _ Hprofile). }
  split; [exact H|]. unfold loadExcludeRules. now rewrite H.
Qed.

Lemma no_home_no_global_rules_witness :
  collectRules (Examples.localOnly "build/") false "."
  = collectRules (Examples.localOnly "build/") true ".".
Proof.
  apply (no_home_no_global_rules (Examples.localOnly "build/") ".").
  - left. reflexivity.
  - left. reflexivity.
Defined.

Lemma collectRules_noGlobal (P : Platform) (rootDir : string) :
  collectRules P true rootDir =
  Returns (map JS.trim
             (significant (linesAt P (pathJoin P rootDir ".generate-toc-exclude")))).
Proof. rewrite collectRules_significant. reflexivity. Qed.

Lemma parseArgs_noGlobal (args : list string) :
  In "--no-global" args -> CLI.noGlobal (CLI.parseArgs args) = true.
Proof.
  intro Hin. unfold CLI.parseArgs. rewrite parseArgs_from.
  cbn [CLI.noGlobal orb].
  apply existsb_exists. exists "--no-global".
  split; [exact Hin|apply String.eqb_refl].
Qed.

(** X10.  With [--no-global] anywhere among the arguments the rules depend
    on the local rule file of the root alone: neither the environment nor
    any other file is looked at. *)
Theorem no_global_reads_local_file_only (P P' : Platform) (args : list string)
    (Hflag : In "--no-global" args)
    (Hjoin : pathJoin P' (CLI.root (CLI.parseArgs args)) ".generate-toc-exclude"
             = pathJoin P (CLI.root (CLI.parseArgs args)) ".generate-toc-exclude")
    (Hlocal : readTextFileSync P'
                (pathJoin P (CLI.root (CLI.parseArgs args)) ".generate-toc-exclude")
              = readTextFileSync P
                  (pathJoin P (CLI.root (CLI.parseArgs args)) ".generate-toc-exclude")) :
  collectRulesFor P' args = collectRulesFor P args.
Proof.
  unfold collectRulesFor. rewrite (parseArgs_noGlobal args Hflag).
  rewrite !collectRules_noGlobal, Hjoin.
  unfold linesAt, readLinesIfExists. now rewrite Hlocal.
Qed.

Lemma no_global_reads_local_file_only_witness :
  collectRulesFor (Samples.twoFiles "/home/u" "*.log" "build/") ["--no-global"]
  = collectRulesFor (Examples.localOnly "build/") ["--no-global"] /\
  collectRulesFor (Samples.twoFiles "/home/u" "*.log" "build/") []
  = Returns ["*.log"; "build/"].
Proof.
  split; [|reflexivity].
  apply (no_global_reads_local_file_only
           (Examples.localOnly "build/")
           (Samples.twoFiles "/home/u" "*.log" "build/") ["--no-global"]).
  - left. reflexivity.
  - reflexivity.
  - reflexivity.
Defined.

Lemma trimStart_id (s : string) :
  nonWhite (firstChar s) = true -> JS.trimStart s = s.
Proof.
  destruct s as [|c s]; [reflexivity|]. simpl. intro H.
  apply negb_true_iff in H. now rewrite H.
Qed.

Lemma trimEnd_id (s : string) :
  nonWhite (lastChar s) = true -> JS.trimEnd s = s.
Proof.
  induction s as [|c s IH]; [reflexivity|]. simpl.
  destruct s as [|d s].
  - simpl. intro H. apply negb_true_iff in H. now rewrite H.
  - intro H. rewrite IH.
    + reflexivity.
    + destruct (lastChar (String d s)) eqn:Hl; [exact H|].
      simpl in Hl. destruct (lastChar s); discriminate.
Qed.

Lemma trim_id (s : string) : trimmed s = true -> JS.trim s = s.
Proof.
  unfold trimmed, JS.trim. intro H. apply andb_true_iff in H as [Hf Hl].
  rewrite (trimStart_id s Hf). now apply trimEnd_id.
Qed.

(** X11.  The two compilers agree on a rule that has no white space after
    its [!] and does not end with the separator: [expandGlobRule] then
    yields the one matcher that version 0.1.0 compiles. *)
Theorem expandGlobRule_agrees_with_legacy (rule : string)
    (Htrimmed : trimmed (ruleRest rule) = true)
    (Hplain : JS.endsWith (ruleRest rule) "/" = false) :
  expandGlobRule rule = [compileRule rule].
Proof.
  unfold expandGlobRule, compileRule.
  rewrite rawPat_ruleRest, (trim_id _ Htrimmed), Hplain. reflexivity.
Qed.

Lemma expandGlobRule_agrees_with_legacy_witness :
  expandGlobRule "!docs/*.md" = [compileRule "!docs/*.md"].
Proof.
  apply (expandGlobRule_agrees_with_legacy "!docs/*.md"); reflexivity.
Defined.

Lemma noLineBreak_cons (c : ascii) (line : string) :
  noLineBreak (String c line) = true ->
  Ascii.eqb c JS.LF = false /\ Ascii.eqb c JS.CR = false /\
  noLineBreak line = true.
Proof.
  unfold noLineBreak, occurs. cbn [list_ascii_of_string existsb].
  rewrite (Ascii.eqb_sym JS.LF c), (Ascii.eqb_sym JS.CR c).
  destruct (Ascii.eqb c JS.LF), (Ascii.eqb c JS.CR); simpl;
    rewrite ?andb_false_r; try discriminate.
  intro H. now rewrite H.
Qed.

Lemma splitLines_line (line : string) :
  noLineBreak line = true -> JS.splitLines line = [line].
Proof.
  induction line as [|c line IH]; [reflexivity|]. intro H.
  apply noLineBreak_cons in H as (Hlf & Hcr & Hline).
  cbn [JS.splitLines]. rewrite Hlf, Hcr, (IH Hline). reflexivity.
Qed.

Lemma splitLines_line_LF (line rest : string) :
  noLineBreak line = true ->
  JS.splitLines (line ++ String JS.LF rest) = line :: JS.splitLines rest.
Proof.
  induction line as [|c line IH]; [reflexivity|]. intro H.
  apply noLineBreak_cons in H as (Hlf & Hcr & Hline).
  cbn [JS.splitLines append]. rewrite Hlf, Hcr, (IH Hline). reflexivity.
Qed.

Lemma splitLines_line_CRLF (line rest : string) :
  noLineBreak line = true ->
  JS.splitLines (line ++ String JS.CR (String JS.LF rest))
  = line :: JS.splitLines rest.
Proof.
  induction line as [|c line IH]; [reflexivity|]. intro H.
  apply noLineBreak_cons in H as (Hlf & Hcr & Hline).
  cbn [JS.splitLines append]. rewrite Hlf, Hcr, (IH Hline). reflexivity.
Qed.

(** X12.  Reading lines undoes joining them, with either line end: lines
    without line break, joined by LF or by CR LF, are read back as they
    were, so a rule file gives the same lines under both conventions. *)
Theorem splitLines_join_round_trip (line : string) (lines : list string)
    (Hlines : forallb noLineBreak (line :: lines) = true) :
  JS.splitLines (JS.join lineEndLF (line :: lines)) = line :: lines /\
  JS.splitLines (JS.join lineEndCRLF (line :: lines)) = line :: lines.
Proof.
  revert line Hlines. induction lines as [|next lines IH]; intros line Hlines;
    cbn [forallb] in Hlines; apply andb_true_iff in Hlines as [Hline Hrest].
  - split; now apply splitLines_line.
  - destruct (IH next Hrest) as [IHlf IHcrlf].
    split; rewrite join_cons by discriminate.
    + unfold lineEndLF at 1. cbn [append].
      now rewrite splitLines_line_LF, IHlf.
    + unfold lineEndCRLF at 1. cbn [append].
      now rewrite splitLines_line_CRLF, IHcrlf.
Qed.

Lemma splitLines_join_round_trip_witness :
  JS.splitLines (JS.join lineEndCRLF ["# note"; ""; "build/"])
  = ["# note"; ""; "build/"].
Proof.
  apply (splitLines_join_round_trip "# note" [""; "build/"]). reflexivity.
Defined.

(** ** More on the tree *)

Lemma snoc_cons (ds : list string) (file : string) :
  exists part rest, ds ++ [file] = part :: rest.
Proof. destruct ds as [|d ds]; simpl; eauto. Qed.

Lemma getNode_insertPath_dir (root : Node) (dir part : string)
    (rest q : list string) :
  getNode (insertPath root (dir :: part :: rest)) (dir :: q) =
  getNode (insertPath (childOrNew dir root) (part :: rest)) q.
Proof.
  cbn [getNode]. rewrite mapGet_insertPath_dir. now rewrite String.eqb_refl.
Qed.

(** X13.  Insert, then look up: after [insertPath] the node at the end of
    the directory chain exists; it is the node that was there, with the
    file added after its files (also when a file of that name is already
    listed), or else a new node named after the last directory, holding
    that file alone. *)
Theorem insertPath_then_getNode :
  forall (dirs : list string) (file : string) (root : Node),
    getNode (insertPath root (dirs ++ [file])) dirs =
      Some (withFile dirs file (getNode root dirs)) /\
    hasFile (insertPath root (dirs ++ [file])) (dirs ++ [file]) = true.
Proof.
  intros dirs file root. split.
  - revert root. induction dirs as [|d ds IH]; intro root; [reflexivity|].
    destruct (snoc_cons ds file) as (part & rest & Hparts).
    cbn [app]. rewrite Hparts, getNode_insertPath_dir, <- Hparts, IH.
    cbn [getNode]. unfold childOrNew.
    destruct (mapGet d (children root)) as [child|].
    + destruct ds as [|d' ds]; [reflexivity|].
      now destruct (getNode child (d' :: ds)).
    + now destruct ds.
  - apply hasFile_insertPath. right. split; [|reflexivity].
    destruct dirs; discriminate.
Qed.

Lemma namedByKey_createNode (n : string) : namedByKey (createNode n).
Proof. intros q node Hq. destruct q; [now injection Hq as <-|discriminate]. Qed.

Lemma namedByKey_child (root child : Node) (key : string) :
  namedByKey root -> mapGet key (children root) = Some child ->
  name child = key /\ namedByKey child.
Proof.
  intros Hroot Hget. split.
  - apply (Hroot [key] child). cbn [getNode]. now rewrite Hget.
  - intros q node Hq.
    assert (H : name child = key).
    { apply (Hroot [key] child). cbn [getNode]. now rewrite Hget. }
    rewrite H, <- (last_cons key (name root) q).
    apply Hroot. cbn [getNode]. now rewrite Hget.
Qed.

Lemma namedByKey_childOrNew (root : Node) (dir : string) :
  namedByKey root ->
  name (childOrNew dir root) = dir /\ namedByKey (childOrNew dir root).
Proof.
  intro Hroot. unfold childOrNew.
  destruct (mapGet dir (children root)) as [child|] eqn:Hget.
  - now apply (namedByKey_child root).
  - split; [reflexivity|apply namedByKey_createNode].
Qed.

Lemma insertPath_namedByKey (pathParts : list string) :
  forall root : Node, namedByKey root -> namedByKey (insertPath root pathParts).
Proof.
  induction pathParts as [|dir rest IH]; intros root Hroot; [exact Hroot|].
  unfold namedByKey. intros q node Hq.
  rewrite (proj1 (insertPath_grows root (dir :: rest))).
  destruct q as [|key q].
  - injection Hq as <-. apply (proj1 (insertPath_grows root (dir :: rest))).
  - destruct rest as [|part rest].
    + apply Hroot. exact Hq.
    + cbn [getNode] in Hq. rewrite mapGet_insertPath_dir in Hq.
      destruct (String.eqb_spec dir key) as [->|Hne].
      * destruct (namedByKey_childOrNew root key Hroot) as [Hname Hchild].
        rewrite last_cons, <- Hname,
          <- (proj1 (insertPath_grows (childOrNew key root) (part :: rest))).
        now apply (IH _ Hchild).
      * apply Hroot. exact Hq.
Qed.

Lemma insertAll_namedByKey (rels : list string) :
  forall root : Node, namedByKey root -> namedByKey (insertAll root rels).
Proof.
  induction rels as [|rel rels IH]; intros root Hroot; [exact Hroot|].
  apply IH. now apply insertPath_namedByKey.
Qed.

Lemma insertAll_name (rels : list string) :
  forall root : Node, name (insertAll root rels) = name root.
Proof.
  induction rels as [|rel rels IH]; intro root; [reflexivity|].
  unfold insertAll in *. simpl. rewrite IH. apply insertPath_grows.
Qed.

(** X14.  In the tree that [buildTree] returns every node bears the name of
    its directory, the last name of its path, and the root the empty name:
    the names the renderer prints are the keys the nodes are stored
    under. *)
Theorem buildTree_nodes_named_by_path :
  forall (entries : list DirEntry) (compiledRules : list Matcher)
         (q : list string) (node : Node),
    getNode (buildTree entries compiledRules) q = Some node ->
    name node = last q "".
Proof.
  intros entries compiledRules q node Hq.
  rewrite buildTree_insertAll in Hq.
  apply (insertAll_namedByKey _ _ (namedByKey_createNode "")) in Hq.
  now rewrite insertAll_name in Hq.
Qed.

Lemma buildTree_nodes_named_by_path_witness :
  exists node,
    getNode (buildTree Examples.project (compileRuleSet ["build/"])) ["a"]
      = Some node /\ name node = "a".
Proof.
  eexists. split; [reflexivity|].
  apply (buildTree_nodes_named_by_path
           Examples.project (compileRuleSet ["build/"]) ["a"]).
  reflexivity.
Defined.

(** ** What the tree holds *)

Section Holds.

Variable compiledRules : list Matcher.

Lemma fileAtEntry_nil (entry : DirEntry) : fileAtEntry entry [] = false.
Proof. destruct entry; reflexivity. Qed.

Lemma fileAtEntry_cons (entry : DirEntry) (part : string) (rest : list string) :
  fileAtEntry entry (part :: rest) =
  (entryName entry =? part) &&
  match entry with
  | File _ => match rest with [] => true | _ :: _ => false end
  | Directory _ entries => existsb (fun e => fileAtEntry e rest) entries
  | Symlink _ => false
  end.
Proof. destruct entry; reflexivity. Qed.

Lemma pathOf_cons (relDir part : string) (rest : list string) :
  pathOf relDir (part :: rest) =
  pathOf (if JS.truthy relDir then posixJoin relDir part else part) rest.
Proof. reflexivity. Qed.

(** The included files below a list of entries are the files that are
    there and are included together with every directory above them. *)
Lemma scanDir_fileAt (entries : list DirEntry) :
  Forall (fun entry =>
            forall relDir rel,
              In rel (scanEntry compiledRules relDir entry) <->
              exists parts,
                fileAtEntry entry parts = true /\
                chainIncluded compiledRules relDir parts = true /\
                rel = pathOf relDir parts) entries ->
  forall relDir rel,
    In rel (scanDir compiledRules entries relDir) <->
    exists parts,
      fileAt entries parts = true /\
      chainIncluded compiledRules relDir parts = true /\
      rel = pathOf relDir parts.
Proof.
  intros Hall relDir rel. rewrite Forall_forall in Hall.
  unfold scanDir, fileAt. rewrite in_flat_map. split.
  - intros (entry & Hin & Hrel).
    apply (Hall entry Hin) in Hrel as (parts & Hfile & Hchain & ->).
    exists parts. repeat split; try assumption.
    apply existsb_exists. now exists entry.
  - intros (parts & Hfile & Hchain & ->).
    apply existsb_exists in Hfile as (entry & Hin & Hfile).
    exists entry. split; [exact Hin|].
    apply (Hall entry Hin). now exists parts.
Qed.

Lemma scanEntry_fileAt (entry : DirEntry) :
  forall relDir rel,
    In rel (scanEntry compiledRules relDir entry) <->
    exists parts,
      fileAtEntry entry parts = true /\
      chainIncluded compiledRules relDir parts = true /\
      rel = pathOf relDir parts.
Proof.
  induction entry as [n|n entries IH|n] using DirEntry_nested_ind;
    intros relDir rel; rewrite scanEntry_unfold; cbv zeta; cbn [entryName];
    set (here := if JS.truthy relDir then posixJoin relDir n else n).
  - (* a file *)
    split.
    + destruct (isIncluded here compiledRules) eqn:Hincl; cbn [negb];
        [|now intros []].
      intros [<-|[]]. exists [n]. repeat split.
      * cbn. now rewrite String.eqb_refl.
      * cbn. fold here. now rewrite Hincl.
    + intros ([|part [|part' rest]] & Hfile & Hchain & ->).
      * discriminate.
      * cbn in Hfile. rewrite andb_true_r in Hfile.
        apply String.eqb_eq in Hfile as <-.
        cbn in Hchain. fold here in Hchain. rewrite andb_true_r in Hchain.
        rewrite Hchain. cbn. now left.
      * cbn in Hfile. rewrite andb_false_r in Hfile. discriminate.
  - (* a directory *)
    split.
    + destruct (isIncluded here compiledRules) eqn:Hincl; cbn [negb];
        [|now intros []].
      intro Hin. apply (scanDir_fileAt entries IH) in Hin
        as (parts & Hfile & Hchain & ->).
      exists (n :: parts). repeat split.
      * rewrite fileAtEntry_cons. cbn [entryName].
        now rewrite String.eqb_refl.
      * cbn [chainIncluded]. fold here. now rewrite Hincl.
    + intros ([|part rest] & Hfile & Hchain & ->); [discriminate|].
      rewrite fileAtEntry_cons in Hfile. cbn [entryName] in Hfile.
      apply andb_true_iff in Hfile as [Hname Hfile].
      apply String.eqb_eq in Hname as <-.
      cbn [chainIncluded] in Hchain. fold here in Hchain.
      apply andb_true_iff in Hchain as [Hincl Hchain].
      rewrite Hincl. cbn [negb]. rewrite pathOf_cons. fold here.
      apply (scanDir_fileAt entries IH). now exists rest.
  - (* neither *)
    split.
    + destruct (isIncluded here compiledRules); now intros [].
    + intros ([|part rest] & Hfile & _); [discriminate|].
      rewrite fileAtEntry_cons, andb_false_r in Hfile. discriminate.
Qed.

End Holds.

Lemma fileAtEntry_names (entry : DirEntry) :
  validEntry entry = true ->
  forall parts, fileAtEntry entry parts = true -> forallb validName parts = true.
Proof.
  induction entry as [n|n entries IH|n] using DirEntry_nested_ind;
    intros Hvalid [|part rest] Hfile; try reflexivity;
    rewrite fileAtEntry_cons in Hfile; cbn [entryName validEntry] in *;
    apply andb_true_iff in Hfile as [Hname Hfile];
    apply String.eqb_eq in Hname as <-;
    apply andb_true_iff in Hvalid as [Hn Hentries];
    cbn [forallb]; rewrite Hn; cbn [andb].
  - now destruct rest.
  - apply existsb_exists in Hfile as (entry & Hin & Hfile).
    rewrite Forall_forall in IH. apply (IH entry Hin); [|exact Hfile].
    rewrite forallb_forall in Hentries. now apply Hentries.
  - discriminate.
Qed.

Lemma split_name (n : string) : validName n = true -> JS.split "/" n = [n].
Proof.
  unfold validName. intro H. apply andb_true_iff in H as [_ H].
  induction n as [|c n IH]; [reflexivity|]. simpl in *.
  apply andb_true_iff in H as [Hc H]. apply negb_true_iff in Hc.
  now rewrite Hc, (IH H).
Qed.

Lemma validName_truthy (n : string) : validName n = true -> JS.truthy n = true.
Proof.
  unfold validName. intro H.
  now apply andb_true_iff in H as [H _], H as [H _], H as [H _].
Qed.

(** The path the traversal computes splits back into the names it was
    built from. *)
Lemma split_pathOf (rest : list string) :
  forall (relDir part : string) (above : list string),
    forallb validName (part :: rest) = true ->
    (relDir = "" /\ above = []) \/
    (JS.truthy relDir = true /\ JS.split "/" relDir = above) ->
    JS.split "/" (pathOf relDir (part :: rest)) = above ++ part :: rest.
Proof.
  induction rest as [|next rest IH]; intros relDir part above Hvalid Hdir;
    cbn [forallb] in Hvalid; apply andb_true_iff in Hvalid as [Hpart Hrest];
    rewrite pathOf_cons;
    set (here := if JS.truthy relDir then posixJoin relDir part else part);
    (assert (Hhere : JS.truthy here = true /\
                     JS.split "/" here = above ++ [part])
      by (subst here; destruct Hdir as [[-> ->]|[Htruthy <-]];
          [split; [now apply validName_truthy|now apply split_name]
          |rewrite Htruthy; split;
           [unfold posixJoin, JS.truthy;
            destruct relDir; [discriminate|reflexivity]
           |unfold posixJoin;
            change (relDir ++ "/" ++ part)%string
              with (relDir ++ String "/" part)%string;
            now rewrite split_app, (split_name part Hpart)]])).
  - cbn [pathOf fold_left]. apply Hhere.
  - rewrite (IH here next (above ++ [part]) Hrest) by (right; exact Hhere).
    now rewrite <- app_assoc.
Qed.

(** X15.  What the tree holds: in a directory tree with real entry names,
    a path is a file of the tree that [buildTree] returns exactly when it
    is the path of a regular file and the engine includes that file and
    every directory above it.  Entries that are neither files nor
    directories are never listed. *)
Theorem buildTree_holds_exactly_included_files (entries : list DirEntry)
    (compiledRules : list Matcher) (Hvalid : validEntries entries = true) :
  forall parts : list string,
    hasFile (buildTree entries compiledRules) parts =
    fileAt entries parts && chainIncluded compiledRules "" parts.
Proof.
  intro parts. apply eq_true_iff_eq.
  rewrite buildTree_files, andb_true_iff.
  assert (Hscan := scanDir_fileAt compiledRules entries
                     (proj2 (Forall_forall _ _)
                        (fun e _ => scanEntry_fileAt compiledRules e)) "").
  assert (Hnames : forall found, fileAt entries found = true ->
                                 forallb validName found = true).
  { intros found Hfound. apply existsb_exists in Hfound as (e & Hin & He).
    apply (fileAtEntry_names e); [|exact He].
    unfold validEntries in Hvalid. rewrite forallb_forall in Hvalid.
    now apply Hvalid. }
  assert (Hsplit : forall found, fileAt entries found = true ->
                                 JS.split "/" (pathOf "" found) = found).
  { intros found Hfound. specialize (Hnames found Hfound).
    destruct found as [|part rest].
    - apply existsb_exists in Hfound as (e & _ & He).
      now rewrite fileAtEntry_nil in He.
    - apply (split_pathOf rest "" part [] Hnames). now left. }
  split.
  - intros (rel & Hin & <-).
    apply Hscan in Hin as (found & Hfile & Hchain & ->).
    now rewrite (Hsplit found Hfile).
  - intros [Hfile Hchain]. exists (pathOf "" parts). split.
    + apply Hscan. now exists parts.
    + now apply Hsplit.
Qed.

Lemma buildTree_holds_exactly_included_files_witness :
  map (hasFile (buildTree Examples.project (compileRuleSet ["build/"])))
      [["a"; "x.txt"]; ["a"; "build"; "y.txt"]; ["README.md"]; ["a"]]
  = [true; false; true; false] /\
  hasFile (buildTree Examples.project (compileRuleSet ["build/"])) ["a"; "x.txt"]
  = fileAt Examples.project ["a"; "x.txt"]
    && chainIncluded (compileRuleSet ["build/"]) "" ["a"; "x.txt"].
Proof.
  split; [reflexivity|].
  apply (buildTree_holds_exactly_included_files
           Examples.project (compileRuleSet ["build/"])).
  reflexivity.
Defined.

(** ** Directory rules at any depth *)

Section MatchesTest.
Import RegExpSem.

Lemma Matches_nullable (r : RegExp) (s k : string) :
  Matches r s k -> s = "" ->
  nullable (match k with EmptyString => true | _ => false end) r = true.
Proof.
  induction 1 as [k|c k|c k Hc|c k Hc| |r1 r2 s1 s2 k _ IH1 _ IH2
                 |r1 r2 s k _ IH|r1 r2 s k _ IH|r k|r s1 s2 k _ _ _ _];
    intro Hs; try discriminate Hs; try reflexivity.
  - destruct s1; [|discriminate Hs]. simpl in Hs. subst s2.
    cbn [nullable]. rewrite (IH2 eq_refl). simpl in IH1.
    now rewrite (IH1 eq_refl).
  - cbn [nullable]. now rewrite (IH Hs).
  - cbn [nullable]. rewrite (IH Hs). apply orb_true_r.
Qed.

Lemma Matches_cat (a b : RegExp) (s k : string) :
  Matches (RCat a b) s k -> Matches (cat a b) s k.
Proof.
  intro H.
  assert (Ha : a = RNever -> False).
  { intros ->. inversion H as [| | | | |? ? ? ? ? H1 _| | | |]. inversion H1. }
  assert (Hb : b = RNever -> False).
  { intros ->. inversion H as [| | | | |? ? ? ? ? _ H2| | | |]. inversion H2. }
  assert (He : a = REmpty -> Matches b s k).
  { intros ->. inversion H as [| | | | |? ? ? ? ? H1 H2| | | |]. subst.
    inversion H1. subst. exact H2. }
  destruct a; try (now elim Ha); destruct b; try (now elim Hb);
    try exact H; now apply He.
Qed.

Lemma Matches_alt (a b : RegExp) (s k : string) :
  Matches (RAlt a b) s k -> Matches (alt a b) s k.
Proof.
  intro H.
  assert (Hab : Matches a s k \/ Matches b s k)
    by (inversion H; subst; auto).
  assert (Ha : a = RNever -> Matches b s k).
  { intros ->. destruct Hab as [H1|H1]; [inversion H1|exact H1]. }
  assert (Hb : b = RNever -> Matches a s k).
  { intros ->. destruct Hab as [H1|H1]; [exact H1|inversion H1]. }
  destruct a; try (now apply Ha); destruct b; try (now apply Hb); exact H.
Qed.

Lemma Matches_deriv (r : RegExp) (s0 k : string) :
  Matches r s0 k ->
  forall (c : ascii) (s : string), s0 = String c s -> Matches (deriv c r) s k.
Proof.
  induction 1 as [k|x k|x k Hx|x k Hx| |r1 r2 s1 s2 k H1 IH1 H2 IH2
                 |r1 r2 s0 k _ IH|r1 r2 s0 k _ IH|r k|r s1 s2 k H1 IH1 H2 IH2];
    intros c s Hs; try discriminate Hs.
  - injection Hs as -> <-. cbn [deriv]. rewrite Ascii.eqb_refl. constructor.
  - injection Hs as -> <-. cbn [deriv]. rewrite Hx. constructor.
  - injection Hs as -> <-. cbn [deriv]. rewrite Hx. constructor.
  - cbn [deriv]. apply Matches_alt. destruct s1 as [|y s1].
    + simpl in Hs. subst s2. apply MAltR.
      assert (Hnull := Matches_nullable _ _ _ H1 eq_refl). simpl in Hnull.
      rewrite Hnull. now apply IH2.
    + injection Hs as -> <-. apply MAltL, Matches_cat.
      apply MCat; [now apply IH1|exact H2].
  - cbn [deriv]. apply Matches_alt, MAltL. now apply IH.
  - cbn [deriv]. apply Matches_alt, MAltR. now apply IH.
  - destruct s1 as [|y s1].
    + simpl in Hs. now apply IH2.
    + injection Hs as -> <-. cbn [deriv]. apply Matches_cat.
      apply MCat; [now apply IH1|exact H2].
Qed.

(** What the relation accepts in full, [test] accepts. *)
Lemma Matches_test (s : string) :
  forall r : RegExp, Matches r s "" -> test r s = true.
Proof.
  induction s as [|c s IH]; intros r H.
  - exact (Matches_nullable _ _ _ H eq_refl).
  - cbn [test]. apply IH. now apply (Matches_deriv _ _ _ H).
Qed.

End MatchesTest.

Lemma append_nil_r (s : string) : (s ++ "")%string = s.
Proof. induction s as [|c s IH]; simpl; [reflexivity|now rewrite IH]. Qed.

Lemma Matches_sep (k : string) : Matches Glob.sep "/" k.
Proof.
  change "/" with ("/" ++ "")%string. apply MCat; constructor.
Qed.

Lemma Matches_sepMaybe (k : string) : Matches Glob.sepMaybe "" k.
Proof. constructor. Qed.

(** A run of characters that are no separators. *)
Lemma Matches_wildcard (seg k : string) :
  forallb (fun c => negb (Ascii.eqb c "/")) (list_ascii_of_string seg) = true ->
  Matches Glob.wildcard seg k.
Proof.
  unfold Glob.wildcard. induction seg as [|c seg IH]; intro H.
  - constructor.
  - simpl in H. apply andb_true_iff in H as [Hc H].
    apply negb_true_iff in Hc.
    change (String c seg) with (String c "" ++ seg)%string.
    apply MStarCons; [now constructor|now apply IH].
Qed.

Lemma forallb_snoc (f : ascii -> bool) (s : string) (c : ascii) :
  forallb f (list_ascii_of_string (s ++ String c "")) =
  forallb f (list_ascii_of_string s) && f c.
Proof.
  induction s as [|x s IH]; simpl; [now rewrite andb_true_r|].
  now rewrite IH, andb_assoc.
Qed.

(** The globstar takes any run of segments that ends with a separator. *)
Lemma Matches_globstar_dirs (a : string) :
  forall seg k : string,
    forallb (fun c => negb (Ascii.eqb c "/")) (list_ascii_of_string seg) = true ->
    Matches Glob.globstar (seg ++ a ++ "/") k.
Proof.
  assert (Hitem : forall seg k,
             forallb (fun c => negb (Ascii.eqb c "/")) (list_ascii_of_string seg)
             = true ->
             Matches (RCat (RStar RNotSep)
                        (RegExpSem.RPlus (RAlt (RChar "/") REnd)))
                     (seg ++ "/") k).
  { intros seg k Hseg. apply MCat; [now apply Matches_wildcard|].
    change "/" with ("/" ++ "")%string.
    apply MCat; [apply MAltL; constructor|constructor]. }
  induction a as [|c a IH]; intros seg k Hseg.
  - rewrite <- (append_nil_r (seg ++ "" ++ "/")). simpl.
    apply MStarCons; [now apply Hitem|constructor].
  - destruct (Ascii.eqb_spec c "/") as [->|Hc].
    + change (seg ++ String "/" a ++ "/")%string
        with (seg ++ String "/" ("" ++ a ++ "/"))%string.
      replace (seg ++ String "/" ("" ++ a ++ "/"))%string
        with ((seg ++ "/") ++ ("" ++ a ++ "/"))%string
        by (now rewrite append_assoc).
      apply MStarCons; [now apply Hitem|now apply IH].
    + replace (seg ++ String c a ++ "/")%string
        with ((seg ++ String c "") ++ a ++ "/")%string
        by (now rewrite append_assoc).
      apply IH. rewrite forallb_snoc, Hseg. simpl.
      apply negb_true_iff. now apply Ascii.eqb_neq.
Qed.

(** At the end of the subject the globstar takes whatever is left. *)
Lemma Matches_globstar_rest (b : string) :
  forall seg : string,
    forallb (fun c => negb (Ascii.eqb c "/")) (list_ascii_of_string seg) = true ->
    Matches Glob.globstar (seg ++ b) "".
Proof.
  induction b as [|c b IH]; intros seg Hseg.
  - rewrite <- (append_nil_r (seg ++ "")).
    apply MStarCons; [|constructor].
    rewrite append_nil_r, <- (append_nil_r seg).
    apply MCat; [now apply Matches_wildcard|].
    change "" with ("" ++ "")%string.
    apply MCat; [apply MAltR; constructor|constructor].
  - destruct (Ascii.eqb_spec c "/") as [->|Hc].
    + replace (seg ++ String "/" b)%string
        with ((seg ++ "/") ++ ("" ++ b))%string
        by (now rewrite append_assoc).
      apply MStarCons; [|now apply IH].
      apply MCat; [now apply Matches_wildcard|].
      change "/" with ("/" ++ "")%string.
      apply MCat; [apply MAltL; constructor|constructor].
    + replace (seg ++ String c b)%string
        with ((seg ++ String c "") ++ b)%string
        by (now rewrite append_assoc).
      apply IH. rewrite forallb_snoc, Hseg. simpl.
      apply negb_true_iff. now apply Ascii.eqb_neq.
Qed.

Lemma Matches_cat_eq (r1 r2 : RegExp) (s s1 s2 k : string) :
  s = (s1 ++ s2)%string ->
  Matches r1 s1 (s2 ++ k) -> Matches r2 s2 k -> Matches (RCat r1 r2) s k.
Proof. intros ->. apply MCat. Qed.

Lemma plainChar_inv (c : ascii) :
  plainChar c = true ->
  Ascii.eqb c "/" = false /\ Ascii.eqb c "\" = false /\
  Ascii.eqb c "*" = false /\ Ascii.eqb c "?" = false.
Proof.
  unfold plainChar. cbn [existsb]. intro H. apply negb_true_iff in H.
  repeat (apply orb_false_iff in H as [? H]). now repeat split.
Qed.

Lemma plainName_inv (n : string) :
  plainName n = true ->
  exists c rest,
    n = String c rest /\ JS.isWhiteSpace c = false /\ Ascii.eqb c "!" = false /\
    plainChar c = true /\
    forallb plainChar (list_ascii_of_string n) = true.
Proof.
  destruct n as [|c rest]; [discriminate|]. unfold plainName. intro H.
  apply andb_true_iff in H as [H Hall]. apply andb_true_iff in H as [Hw Hb].
  exists c, rest. repeat split.
  - now apply negb_true_iff.
  - now apply negb_true_iff.
  - simpl in Hall. now apply andb_true_iff in Hall as [Hc _].
  - exact Hall.
Qed.

Lemma plain_no_slash (s : string) :
  forallb plainChar (list_ascii_of_string s) = true ->
  forallb (fun c => negb (Ascii.eqb c "/")) (list_ascii_of_string s) = true.
Proof.
  induction s as [|c s IH]; [reflexivity|]. simpl. intro H.
  apply andb_true_iff in H as [Hc H].
  destruct (plainChar_inv c Hc) as (Hs & _). now rewrite Hs, (IH H).
Qed.

(** A name of plain characters compiles to its characters, which match the
    name. *)
Lemma Matches_segmentBody (s k : string) :
  forallb plainChar (list_ascii_of_string s) = true ->
  Matches (Glob.segmentBody (list_ascii_of_string s)) s k.
Proof.
  induction s as [|c s IH]; intro H; [constructor|].
  simpl in H. apply andb_true_iff in H as [Hc H].
  destruct (plainChar_inv c Hc) as (_ & _ & Hstar & Hquest).
  cbn [list_ascii_of_string Glob.segmentBody]. rewrite Hstar, Hquest.
  change (String c s) with (String c "" ++ s)%string.
  apply MCat; [constructor|now apply IH].
Qed.

Lemma segment_plain (c : ascii) (seg : list ascii) (more : bool) :
  Ascii.eqb c "*" = false ->
  Glob.segment (c :: seg) more =
  RCat (Glob.segmentBody (c :: seg)) (if more then Glob.sep else Glob.sepMaybe).
Proof.
  destruct c as [[] [] [] [] [] [] [] []]; try reflexivity. discriminate.
Qed.

Lemma list_ascii_app (a b : string) :
  list_ascii_of_string (a ++ b) = list_ascii_of_string a ++ list_ascii_of_string b.
Proof. induction a as [|c a IH]; simpl; [reflexivity|now rewrite IH]. Qed.

(** The loop of the glob compiler over a segment without separator. *)
Lemma segments_segment (s : string) :
  forallb (fun c => negb (Ascii.eqb c "/")) (list_ascii_of_string s) = true ->
  forall (cur : list ascii) (rest : string),
    Glob.segments (Some cur) (s ++ String "/" rest) =
      RCat (Glob.segment (rev cur ++ list_ascii_of_string s) true)
           (Glob.segments None rest) /\
    Glob.segments (Some cur) s =
      Glob.segment (rev cur ++ list_ascii_of_string s) false.
Proof.
  induction s as [|c s IH]; intros H cur rest.
  - simpl. now rewrite app_nil_r.
  - simpl in H. apply andb_true_iff in H as [Hc H].
    apply negb_true_iff in Hc.
    cbn [append Glob.segments list_ascii_of_string]. rewrite Hc.
    destruct (IH H (c :: cur) rest) as [IH1 IH2].
    rewrite IH1, IH2. cbn [rev]. now rewrite <- !app_assoc.
Qed.

Lemma segments_name (n : string) (rest : string) :
  plainName n = true ->
  Glob.segments None (n ++ String "/" rest) =
    RCat (RCat (Glob.segmentBody (list_ascii_of_string n)) Glob.sep)
         (Glob.segments None rest) /\
  Glob.segments None n =
    RCat (Glob.segmentBody (list_ascii_of_string n)) Glob.sepMaybe.
Proof.
  intro Hn. destruct (plainName_inv n Hn) as (c & s & -> & _ & _ & Hc & Hall).
  destruct (plainChar_inv c Hc) as (Hslash & _ & Hstar & _).
  apply plain_no_slash in Hall. simpl in Hall. rewrite Hslash in Hall.
  destruct (segments_segment s Hall [c] rest) as [H1 H2].
  cbn [append Glob.segments list_ascii_of_string]. rewrite Hslash, H1, H2.
  cbn [rev app]. now rewrite !segment_plain.
Qed.

Lemma lastChar_app (a b : string) :
  b <> "" -> lastChar (a ++ b) = lastChar b.
Proof.
  intro Hb. induction a as [|c a IH]; [reflexivity|]. simpl. rewrite IH.
  destruct b as [|d b]; [now elim Hb|]. simpl. now destruct (lastChar b).
Qed.

Lemma dropSeps_id (s : string) :
  match lastChar s with
  | Some c => Ascii.eqb c "/" = false
  | None => True
  end -> Glob.dropSeps s = s.
Proof.
  induction s as [|c s IH]; [reflexivity|]. simpl.
  destruct s as [|d s].
  - simpl. now intros ->.
  - intro H. rewrite IH; [reflexivity|].
    destruct (lastChar (String d s)) eqn:Hl; [exact H|].
    simpl in Hl. destruct (lastChar s); discriminate.
Qed.

Lemma lastChar_plain (s : string) :
  forallb plainChar (list_ascii_of_string s) = true ->
  match lastChar s with
  | Some c => Ascii.eqb c "/" = false
  | None => True
  end.
Proof.
  induction s as [|c s IH]; [exact (fun _ => I)|]. simpl. intro H.
  apply andb_true_iff in H as [Hc H]. specialize (IH H).
  destruct (lastChar s); [exact IH|]. now apply plainChar_inv.
Qed.

(** The four globs of the rule [n/], compiled. *)
Lemma globs_of_directory (n : string) :
  plainName n = true ->
  let body := Glob.segmentBody (list_ascii_of_string n) in
  Glob.globToRegExp ("**/" ++ (n ++ "/") ++ "**") =
    RCat Glob.globstar (RCat (RCat body Glob.sep) Glob.globstar) /\
  Glob.globToRegExp ((n ++ "/") ++ "**") =
    RCat (RCat body Glob.sep) Glob.globstar /\
  Glob.globToRegExp ("**/" ++ n) = RCat Glob.globstar (RCat body Glob.sepMaybe) /\
  Glob.globToRegExp n = RCat body Glob.sepMaybe.
Proof.
  intros Hn body.
  destruct (plainName_inv n Hn) as (c & s & Hns & _ & _ & Hc & Hall).
  assert (Hlast := lastChar_plain n Hall).
  destruct (segments_name n "**" Hn) as [Hdir Hend].
  change (Glob.segments None "**") with Glob.globstar in Hdir.
  repeat split.
  - rewrite append_assoc.
    change ("**/" ++ n ++ "/" ++ "**")%string
      with (String "*" (String "*" (String "/" (n ++ String "/" "**")))).
    unfold Glob.globToRegExp, Glob.dropTrailingSeps.
    rewrite dropSeps_id.
    + cbn [Glob.segments Ascii.eqb Bool.eqb rev app]. cbv iota.
      now rewrite Hdir.
    + change (String "*" (String "/" (n ++ String "/" "**")))
        with ("*/" ++ n ++ "/**")%string.
      now rewrite !lastChar_app by (discriminate || now subst n).
  - rewrite append_assoc. subst n.
    change ((String c s ++ "/" ++ "**")%string)
      with (String c (s ++ String "/" "**")).
    unfold Glob.globToRegExp, Glob.dropTrailingSeps.
    rewrite dropSeps_id.
    + change (String c (s ++ String "/" "**"))
        with (String c s ++ String "/" "**")%string.
      rewrite (proj1 (segments_segment (String c s) (plain_no_slash _ Hall)
                        [] _)).
      cbn [rev app list_ascii_of_string].
      now rewrite segment_plain by now apply plainChar_inv.
    + now rewrite lastChar_app by discriminate.
  - change ("**/" ++ n)%string with (String "*" (String "*" (String "/" n))).
    unfold Glob.globToRegExp, Glob.dropTrailingSeps.
    rewrite dropSeps_id.
    + cbn [Glob.segments Ascii.eqb Bool.eqb rev app]. cbv iota.
      now rewrite Hend.
    + change (String "*" (String "/" n)) with ("*/" ++ n)%string.
      rewrite lastChar_app by now subst n. exact Hlast.
  - subst n. unfold Glob.globToRegExp, Glob.dropTrailingSeps.
    rewrite dropSeps_id.
    + rewrite (proj2 (segments_segment (String c s) (plain_no_slash _ Hall)
                        [] "")).
      cbn [rev app list_ascii_of_string].
      now rewrite segment_plain by now apply plainChar_inv.
    + simpl in Hlast. destruct (lastChar s); [exact Hlast|exact I].
Qed.

Lemma endsWith_app (a b : string) : JS.endsWith (a ++ b) b = true.
Proof.
  induction a as [|c a IH].
  - cbn [append]. destruct b; cbn [JS.endsWith]; now rewrite String.eqb_refl.
  - cbn [append JS.endsWith]. rewrite IH. apply orb_true_r.
Qed.

Lemma substring_prefix (a b : string) :
  String.substring 0 (String.length a) (a ++ b) = a.
Proof.
  induction a as [|c a IH]; simpl; [now destruct b|now rewrite IH].
Qed.

Lemma length_append (a b : string) :
  String.length (a ++ b) = String.length a + String.length b.
Proof. induction a as [|c a IH]; simpl; [reflexivity|now rewrite IH]. Qed.

Lemma slice_drop_last (n : string) (c : ascii) :
  JS.slice (n ++ String c "") 0 (Some (-1)%Z) = n.
Proof.
  unfold JS.slice, JS.clampIndex. rewrite length_append. cbn [String.length].
  change (0 <? 0)%Z with false. change (-1 <? 0)%Z with true. cbv iota.
  change (Z.to_nat 0) with 0.
  replace (Nat.min 0 (String.length n + 1)) with 0 by lia.
  replace (Z.to_nat (Z.max (Z.of_nat (String.length n + 1) + -1) 0) - 0)
    with (String.length n) by lia.
  apply substring_prefix.
Qed.

Lemma directory_rule_pattern (n : string) :
  plainName n = true ->
  ruleNegated (n ++ "/") = false /\ rulePattern (n ++ "/") = (n ++ "/")%string.
Proof.
  intro Hn. destruct (plainName_inv n Hn) as (c & s & -> & Hw & Hb & _ & _).
  assert (Hneg : ruleNegated (String c s ++ "/") = false).
  { rewrite <- startsWith_bang, startsWith_char. exact Hb. }
  split; [exact Hneg|].
  unfold rulePattern. rewrite (ruleRest_plain _ Hneg).
  apply trim_id. unfold trimmed.
  rewrite lastChar_app by discriminate. simpl. now rewrite Hw.
Qed.

Lemma directory_rule_rx (n : string) :
  plainName n = true ->
  let body := Glob.segmentBody (list_ascii_of_string n) in
  map rx (expandGlobRule (n ++ "/")) =
  [ RCat Glob.globstar (RCat (RCat body Glob.sep) Glob.globstar);
    RCat (RCat body Glob.sep) Glob.globstar;
    RCat Glob.globstar (RCat body Glob.sepMaybe);
    RCat body Glob.sepMaybe ].
Proof.
  intros Hn body.
  destruct (globs_of_directory n Hn) as (H1 & H2 & H3 & H4).
  rewrite rx_expandGlobRule, (proj2 (directory_rule_pattern n Hn)).
  unfold patternGlobs. rewrite endsWith_app, slice_drop_last.
  cbn [map]. now rewrite H1, H2, H3, H4.
Qed.

Lemma backslashToSlash_app (a b : string) :
  backslashToSlash (a ++ b) = (backslashToSlash a ++ backslashToSlash b)%string.
Proof. induction a as [|c a IH]; simpl; [reflexivity|now rewrite IH]. Qed.

Lemma backslashToSlash_plain (s : string) :
  forallb plainChar (list_ascii_of_string s) = true -> backslashToSlash s = s.
Proof.
  induction s as [|c s IH]; [reflexivity|]. simpl. intro H.
  apply andb_true_iff in H as [Hc H].
  destruct (plainChar_inv c Hc) as (_ & Hb & _). now rewrite Hb, (IH H).
Qed.

Lemma excluded_by_matching_rule (rule p : string) (cs : list Matcher) :
  ruleNegated rule = false -> ruleMatches p rule = true ->
  isIncluded p (cs ++ expandGlobRule rule) = false.
Proof.
  intros Hneg Hm. rewrite isIncluded_app.
  rewrite (fold_stepVerdict_uniform p _ false)
    by (intros m Hin; now rewrite (expandGlobRule_neg _ _ Hin)).
  fold (ruleMatches p rule). now rewrite Hm.
Qed.

(** X16.  A rule [n/], for a directory name [n] of plain characters,
    matches the directory itself and every path beneath it, at the root and
    at any depth, so appended to any rule set it excludes them all. *)
Theorem directory_rule_matches_at_any_depth (n : string)
    (Hn : plainName n = true) :
  forall (above below p : string) (cs : list Matcher),
    In p [ n; (n ++ "/" ++ below)%string; (above ++ "/" ++ n)%string;
           (above ++ "/" ++ n ++ "/" ++ below)%string ] ->
    ruleMatches p (n ++ "/") = true /\
    isIncluded p (cs ++ expandGlobRule (n ++ "/")) = false.
Proof.
  intros above below p cs Hp.
  destruct (plainName_inv n Hn) as (c & s & Hns & _ & _ & _ & Hall).
  assert (Hbody : forall k,
             Matches (Glob.segmentBody (list_ascii_of_string n)) n k)
    by (intro k; now apply Matches_segmentBody).
  assert (Hdirs : forall a k, Matches Glob.globstar (a ++ "/") k)
    by (intros a k; now apply (Matches_globstar_dirs a "" k)).
  assert (Hrest : forall b, Matches Glob.globstar b "")
    by (intro b; now apply (Matches_globstar_rest b "")).
  assert (Hsep : forall k,
             Matches (RCat (Glob.segmentBody (list_ascii_of_string n)) Glob.sep)
                     (n ++ "/") k).
  { intro k. apply MCat; [apply Hbody|apply Matches_sep]. }
  assert (Hend : forall k,
             Matches (RCat (Glob.segmentBody (list_ascii_of_string n))
                        Glob.sepMaybe) n k).
  { intro k. apply (Matches_cat_eq _ _ n n "" k);
      [now rewrite append_nil_r|apply Hbody|apply Matches_sepMaybe]. }
  assert (Hm : ruleMatches p (n ++ "/") = true).
  { unfold ruleMatches.
    rewrite existsb_matches_rx, (directory_rule_rx n Hn),
      posixish_backslashToSlash.
    cbn [existsb]. rewrite !orb_true_iff.
    destruct Hp as [<-|[<-|[<-|[<-|[]]]]];
      rewrite ?backslashToSlash_app, ?(backslashToSlash_plain n Hall);
      change (backslashToSlash "/") with "/".
    - right; right; right; left. apply Matches_test, Hend.
    - right; left. apply Matches_test.
      apply (Matches_cat_eq _ _ _ (n ++ "/") (backslashToSlash below) "");
        [now rewrite append_assoc|apply Hsep|apply Hrest].
    - right; right; left. apply Matches_test.
      apply (Matches_cat_eq _ _ _ (backslashToSlash above ++ "/") n "");
        [now rewrite append_assoc|apply Hdirs|apply Hend].
    - left. apply Matches_test.
      apply (Matches_cat_eq _ _ _ (backslashToSlash above ++ "/")
               (n ++ "/" ++ backslashToSlash below) "");
        [now rewrite append_assoc|apply Hdirs|].
      apply (Matches_cat_eq _ _ _ (n ++ "/") (backslashToSlash below) "");
        [now rewrite append_assoc|apply Hsep|apply Hrest]. }
  split; [exact Hm|].
  apply excluded_by_matching_rule; [|exact Hm].
  now apply directory_rule_pattern.
Qed.

Lemma directory_rule_matches_at_any_depth_witness :
  ruleMatches "src/vendor/.git/hooks/pre-commit" ".git/" = true /\
  isIncluded "src/vendor/.git/hooks/pre-commit"
    (compileRuleSet ["!*.md"] ++ expandGlobRule ".git/") = false.
Proof.
  apply (directory_rule_matches_at_any_depth ".git" eq_refl
           "src/vendor" "hooks/pre-commit").
  right; right; right; left. reflexivity.
Defined.

(** ** Rendering *)

Section Rendering.

Variable localeCompare : string -> string -> Z.
Variable encodeURI : string -> string.

Lemma insertSorted_length {A : Type} (compare : A -> A -> Z) (x : A)
    (l : list A) :
  List.length (insertSorted compare x l) = S (List.length l).
Proof.
  induction l as [|y l IH]; simpl; [reflexivity|].
  destruct (compare x y <=? 0)%Z; simpl; [reflexivity|now rewrite IH].
Qed.

Lemma sortWith_length {A : Type} (compare : A -> A -> Z) (l : list A) :
  List.length (sortWith compare l) = List.length l.
Proof.
  induction l as [|x l IH]; simpl; [reflexivity|].
  fold (sortWith compare l). now rewrite insertSorted_length, IH.
Qed.

(** Sorting the images under a map that respects the comparison is mapping
    the sorted list. *)
Lemma sortWith_map {A B : Type} (f : A -> B) (compareA : A -> A -> Z)
    (compareB : B -> B -> Z) (l : list A) :
  (forall a b, compareB (f a) (f b) = compareA a b) ->
  sortWith compareB (map f l) = map f (sortWith compareA l).
Proof.
  intro Hf. induction l as [|x l IH]; [reflexivity|].
  cbn [map sortWith fold_right]. fold (sortWith compareB (map f l)).
  fold (sortWith compareA l). rewrite IH.
  generalize (sortWith compareA l) as sorted.
  induction sorted as [|y sorted IHs]; [reflexivity|].
  cbn [map insertSorted]. rewrite Hf.
  destruct (compareA x y <=? 0)%Z; [reflexivity|].
  cbn [map]. now rewrite IHs.
Qed.

(** [renderNode] as the program has it: the child nodes sorted by name,
    then each rendered; the files sorted; both between the list tags when
    there is anything to list. *)
Lemma renderNode_as_written (node : Node) (basePath : string) :
  renderNode localeCompare encodeURI node basePath =
  let dirs := sortWith (fun a b => localeCompare (name a) (name b))
                (map snd (children node)) in
  let files := sortWith localeCompare (files node) in
  let some := negb (Nat.eqb (List.length dirs) 0)
              || negb (Nat.eqb (List.length files) 0) in
  ((if some then "<ul>" ++ nl else "")
   ++ String.concat ""
        (map (fun d =>
                dirItem (name d)
                  (renderNode localeCompare encodeURI d
                     (childPath basePath (name d))))
             dirs)
   ++ String.concat "" (map (fileItem encodeURI basePath) files)
   ++ (if some then "</ul>" ++ nl else ""))%string.
Proof.
  destruct node as [nodeName nodeChildren nodeFiles].
  cbn [renderNode children files]. cbv zeta.
  set (item := fun d : Node =>
                 (name d,
                  dirItem (name d)
                    (renderNode localeCompare encodeURI d
                       (childPath basePath (name d))))).
  replace (map (fun entry : string * Node => _) nodeChildren)
    with (map item (map snd nodeChildren))
    by (rewrite map_map; reflexivity).
  rewrite (sortWith_map item (fun a b => localeCompare (name a) (name b))
             (fun a b => localeCompare (fst a) (fst b)))
    by reflexivity.
  now rewrite length_map, map_map.
Qed.

Lemma renderNode_empty (node : Node) (basePath : string) :
  renderNode localeCompare encodeURI node basePath = "" <->
  children node = [] /\ files node = [].
Proof.
  rewrite renderNode_as_written. cbv zeta.
  rewrite !sortWith_length, length_map.
  destruct node as [nodeName [|child nodeChildren] [|file nodeFiles]];
    cbn [children files List.length Nat.eqb negb orb map sortWith fold_right];
    split; try discriminate; try (now intros [? ?]).
  now split.
Qed.

Lemma renderNode_list (node : Node) (basePath : string) :
  children node <> [] \/ files node <> [] ->
  exists items,
    renderNode localeCompare encodeURI node basePath
    = ("<ul>" ++ nl ++ items)%string.
Proof.
  intro Hsome. rewrite renderNode_as_written. cbv zeta.
  rewrite !sortWith_length, length_map.
  assert (Hlen : negb (Nat.eqb (List.length (children node)) 0)
                 || negb (Nat.eqb (List.length (files node)) 0) = true).
  { destruct (children node), (files node); try reflexivity.
    now destruct Hsome. }
  rewrite Hlen. eexists. rewrite append_assoc. reflexivity.
Qed.

End Rendering.

Lemma hasFile_not_empty (root : Node) (parts : list string) :
  hasFile root parts = true -> children root <> [] \/ files root <> [].
Proof.
  destruct parts as [|part [|part' rest]]; cbn [hasFile]; intro H.
  - discriminate.
  - right. now destruct (files root).
  - left. now destruct (children root).
Qed.

(** X17.  The page says [(no files)] when the scan yields no included
    file, and otherwise holds a list: [renderNode] gives the empty string
    exactly for a node without child and without file, which [wrapPage]
    replaces by the note. *)
Theorem page_lists_files_or_says_none :
  forall (localeCompare : string -> string -> Z) (encodeURI : string -> string)
         (entries : list DirEntry) (compiledRules : list Matcher),
    (forall node basePath,
        renderNode localeCompare encodeURI node basePath = "" <->
        children node = [] /\ files node = []) /\
    (scanDir compiledRules entries "" = [] ->
     renderPage localeCompare encodeURI entries compiledRules
     = (pageHead ++ noFilesNote ++ pageFoot)%string) /\
    (scanDir compiledRules entries "" <> [] ->
     exists items,
       renderPage localeCompare encodeURI entries compiledRules
       = (pageHead ++ ("<ul>" ++ nl ++ items) ++ pageFoot)%string).
Proof.
  intros localeCompare encodeURI entries compiledRules.
  split; [apply renderNode_empty|]. unfold renderPage. cbv zeta.
  rewrite buildTree_insertAll. split.
  - intros ->. reflexivity.
  - intro Hscan.
    destruct (scanDir compiledRules entries "") as [|rel rels] eqn:Hrels;
      [now elim Hscan|].
    assert (Hfile : hasFile (insertAll (createNode "") (rel :: rels))
                      (JS.split "/" rel) = true).
    { apply hasFile_insertAll. right. exists rel. split; [now left|reflexivity]. }
    apply hasFile_not_empty in Hfile.
    destruct (renderNode_list localeCompare encodeURI _ "" Hfile)
      as (items & Hitems).
    exists items. rewrite Hitems. reflexivity.
Qed.

Lemma page_lists_files_or_says_none_witness :
  scanDir (compileRuleSet ["*"]) Examples.project "" = [] /\
  renderPage (fun _ _ => 0%Z) (fun p => p) Examples.project (compileRuleSet ["*"])
  = (pageHead ++ noFilesNote ++ pageFoot)%string.
Proof.
  split; [reflexivity|].
  apply (page_lists_files_or_says_none (fun _ _ => 0%Z) (fun p => p)
           Examples.project (compileRuleSet ["*"])).
  reflexivity.
Defined.

(** X18.  [insertPath] adds the inserted path and nothing else: afterwards
    the files of the tree are those it had and the inserted one, and its
    nodes are those it had and the directories above the inserted file. *)
Theorem insertPath_adds_exactly_the_path :
  forall (root : Node) (pathParts parts q : list string),
    (hasFile (insertPath root pathParts) parts = true <->
     hasFile root parts = true \/ (pathParts <> [] /\ parts = pathParts)) /\
    (getNode (insertPath root pathParts) q <> None <->
     getNode root q <> None \/ properPrefix q pathParts).
Proof.
  intros root pathParts parts q. split.
  - apply hasFile_insertPath.
  - apply getNode_insertPath.
Qed.

Lemma insertPath_adds_exactly_the_path_witness :
  hasFile (insertPath (createNode "") ["a"; "b"; "f.txt"]) ["a"; "b"; "f.txt"] = true /\
  getNode (insertPath (createNode "") ["a"; "b"; "f.txt"]) ["a"; "c"] = None.
Proof.
  split.
  - apply (insertPath_adds_exactly_the_path
             (createNode "") ["a"; "b"; "f.txt"] ["a"; "b"; "f.txt"] []).
    right. split; [discriminate|reflexivity].
  - reflexivity.
Defined.
